(** * MIRI LRS spectral extraction: the extraction core, embedded and verified

    The notebook [miri_lrs_spectral_extraction.ipynb] extracts a 1-D spectrum
    from a rectified 2-D image with numpy.  This development embeds

    - the numpy array operations the notebook's cells use ([Np]),
    - the PSF-weighted cells of the notebook itself ([Notebook]),
    - the mask builder and the reducer of the imported module [spextract],
      whose file is not part of the sources at hand ([Spextract]),

    and proves the properties the specification states about them.

    Pixel values are finite floats read as exact rationals: no rounding, and
    an operation whose numpy result would be [inf] or [nan] (a division by
    zero) is reported as [FloatingPointError] instead of being stored. *)

From Stdlib Require Import QArith Qminmax Lqa Lia List Bool Arith ZArith Znat.
Import ListNotations.

Local Open Scope Q_scope.

(** ** Results of operations that can raise *)

Inductive exn : Type :=
| ValueError          (* shapes that do not broadcast, empty reduction *)
| FloatingPointError  (* divide by zero encountered *)
| ShapeMismatch.      (* precondition of the reducer *)

Inductive result (A : Type) : Type :=
| Ok (a : A)
| Raise (e : exn).

Arguments Ok {A} a.
Arguments Raise {A} e.

Definition bind {A B : Type} (r : result A) (k : A -> result B) : result B :=
  match r with
  | Ok a => k a
  | Raise e => Raise e
  end.

Notation "x <- r ;; k" := (bind r (fun x => k))
  (at level 61, r at next level, right associativity).

(** ** numpy arrays *)

Module Np.

(** A 1-D array: its length and its items.  Items at indices outside the
    length are never read by the operations below. *)
Record ndarray1 : Type := mk1 { len : nat; item1 : nat -> Q }.

(** A 2-D array of shape [(shape0, shape1)]: axis 0 is the spatial
    (cross-dispersion) axis, axis 1 the dispersion axis. *)
Record ndarray2 : Type := mk2 { shape0 : nat; shape1 : nat; item : nat -> nat -> Q }.

(** [np.array(rows)] for a rectangular list of rows. *)
Definition array (rows : list (list Q)) : ndarray2 :=
  {| shape0 := length rows;
     shape1 := length (hd [] rows);
     item := fun p j => nth j (nth p rows []) 0 |}.

(** Two arrays are the same array: same shape, same items inside it. *)
Definition same2 (a b : ndarray2) : Prop :=
  shape0 a = shape0 b /\ shape1 a = shape1 b /\
  forall p j, (p < shape0 a)%nat -> (j < shape1 a)%nat -> item a p j == item b p j.

(** Broadcasting of one axis: equal lengths, or one of them is 1. *)
Definition bdim (a b : nat) : option nat :=
  if (a =? b)%nat then Some a
  else if (a =? 1)%nat then Some b
  else if (b =? 1)%nat then Some a
  else None.

(** The index read in an operand whose axis has length [a]. *)
Definition bidx (a i : nat) : nat := if (a =? 1)%nat then 0%nat else i.

(** [a op b], element-wise with broadcasting. *)
Definition binop (f : Q -> Q -> Q) (a b : ndarray2) : result ndarray2 :=
  match bdim (shape0 a) (shape0 b), bdim (shape1 a) (shape1 b) with
  | Some m, Some n =>
      Ok {| shape0 := m; shape1 := n;
            item := fun p j =>
              f (item a (bidx (shape0 a) p) (bidx (shape1 a) j))
                (item b (bidx (shape0 b) p) (bidx (shape1 b) j)) |}
  | _, _ => Raise ValueError
  end.

Definition multiply : ndarray2 -> ndarray2 -> result ndarray2 := binop Qmult.
Definition subtract : ndarray2 -> ndarray2 -> result ndarray2 := binop Qminus.

(** [P p j] at every index of an [m] by [n] array. *)
Definition all_items (m n : nat) (P : nat -> nat -> bool) : bool :=
  forallb (fun p => forallb (P p) (seq 0 n)) (seq 0 m).

(** [a /= b]: in place, so the broadcast shape has to be the shape of [a];
    a zero divisor makes numpy store [inf] or [nan]. *)
Definition idivide (a b : ndarray2) : result ndarray2 :=
  match bdim (shape0 a) (shape0 b), bdim (shape1 a) (shape1 b) with
  | Some m, Some n =>
      if ((m =? shape0 a) && (n =? shape1 a))%nat then
        if all_items m n (fun p j =>
             negb (Qeq_bool (item b (bidx (shape0 b) p) (bidx (shape1 b) j)) 0))
        then Ok {| shape0 := m; shape1 := n;
                   item := fun p j =>
                     item a p j / item b (bidx (shape0 b) p) (bidx (shape1 b) j) |}
        else Raise FloatingPointError
      else Raise ValueError
  | _, _ => Raise ValueError
  end.

(** The maximum of [f 0 .. f k], reduced from the first item on. *)
Fixpoint max_upto (f : nat -> Q) (k : nat) : Q :=
  match k with
  | O => f O
  | S k' => Qmax (max_upto f k') (f (S k'))
  end.

(** [np.max(a, axis=0)]: the maximum has no identity, an empty axis raises. *)
Definition amax_axis0 (a : ndarray2) : result ndarray1 :=
  match shape0 a with
  | O => Raise ValueError
  | S k => Ok {| len := shape1 a; item1 := fun j => max_upto (fun p => item a p j) k |}
  end.

(** The sum of [f 0 .. f (m-1)], from the identity 0. *)
Fixpoint sum_upto (f : nat -> Q) (m : nat) : Q :=
  match m with
  | O => 0
  | S k => sum_upto f k + f k
  end.

(** [np.sum(a, axis=0)]. *)
Definition sum_axis0 (a : ndarray2) : ndarray1 :=
  {| len := shape1 a; item1 := fun j => sum_upto (fun p => item a p j) (shape0 a) |}.

(** [np.tile(v, (reps, 1))]: [reps] copies of the 1-D array as rows. *)
Definition tile (v : ndarray1) (reps : nat) : ndarray2 :=
  {| shape0 := reps; shape1 := len v; item := fun _ j => item1 v j |}.

(** [a[a == x] = y]. *)
Definition assign_where_eq (a : ndarray2) (x y : Q) : ndarray2 :=
  {| shape0 := shape0 a; shape1 := shape1 a;
     item := fun p j => if Qeq_bool (item a p j) x then y else item a p j |}.

(** [np.full((m, n), x)]. *)
Definition full (m n : nat) (x : Q) : ndarray2 :=
  {| shape0 := m; shape1 := n; item := fun _ _ => x |}.

(** [v *= c] for a scalar [c]. *)
Definition imul_scalar (v : ndarray1) (c : Q) : ndarray1 :=
  {| len := len v; item1 := fun j => item1 v j * c |}.

(** [np.array(l)] for a list of items. *)
Definition array1 (l : list Q) : ndarray1 :=
  {| len := length l; item1 := fun j => nth j l 0 |}.

(** [np.transpose(a)] of a 2-D array. *)
Definition transpose (a : ndarray2) : ndarray2 :=
  {| shape0 := shape1 a; shape1 := shape0 a; item := fun p j => item a j p |}.

(** [np.arange(n)]. *)
Definition arange (n : nat) : ndarray1 :=
  {| len := n; item1 := fun i => inject_Z (Z.of_nat i) |}.

(** A 1-D array of booleans, the result of a comparison. *)
Record boolarray : Type := mkb { blen : nat; bitem : nat -> bool }.

(** [v > x] for a scalar [x]. *)
Definition greater (v : ndarray1) (x : Q) : boolarray :=
  {| blen := len v; bitem := fun j => negb (Qle_bool (item1 v j) x) |}.

(** The result of an indexing, which raises [IndexError] out of bounds. *)
Inductive indexed (A : Type) : Type :=
| Item (a : A)
| IndexError.

Arguments Item {A} a.
Arguments IndexError {A}.

(** The indices a boolean index selects, in increasing order. *)
Definition selected (m : boolarray) : list nat :=
  filter (bitem m) (seq 0 (blen m)).

(** [v[m]] for a boolean index [m]: the items where [m] is true, in order;
    the index has to be as long as the array. *)
Definition getitem_mask (v : ndarray1) (m : boolarray) : indexed ndarray1 :=
  if (blen m =? len v)%nat then Item (array1 (map (item1 v) (selected m)))
  else IndexError.

(** [a[:, k]] for an integer [k]: a negative index counts from the end. *)
Definition getcol (a : ndarray2) (k : Z) : indexed ndarray1 :=
  let n := Z.of_nat (shape1 a) in
  if ((0 <=? k) && (k <? n))%Z then
    Item {| len := shape0 a; item1 := fun p => item a p (Z.to_nat k) |}
  else if ((- n <=? k) && (k <? 0))%Z then
    Item {| len := shape0 a; item1 := fun p => item a p (Z.to_nat (n + k)) |}
  else IndexError.

End Np.

Import Np.

(** ** The notebook's PSF-weighted cells *)

Module Notebook.

(** The normalisation step of the "Mock a LRS spectral profile reference
    file" cell:
<<
    max_psf = np.max(psf_weightimage, axis=0)
    div_image = np.tile(max_psf, (psf_weightimage.shape[0], 1))
    div_image[div_image == 0.0] = 1.0  # avoid divide by zero issues
    psf_weightimage /= div_image
>> *)
Definition normalize_columns (psf_weightimage : ndarray2) : result ndarray2 :=
  max_psf <- amax_axis0 psf_weightimage ;;
  let div_image := tile max_psf (shape0 psf_weightimage) in
  let div_image := assign_where_eq div_image 0 1 in
  idivide psf_weightimage div_image.

(** The whole cell: [psf_weightimage = lrspsf*wimage_scaledboxcar], then the
    normalisation.  The specification calls it [normalize_psf_weights]. *)
Definition psf_weightimage (lrspsf wimage_scaledboxcar : ndarray2) : result ndarray2 :=
  masked <- multiply lrspsf wimage_scaledboxcar ;;
  normalize_columns masked.

(** The PSF-weighted extraction cell, first statement:
    [np.sum(sboxcar_bkgsub_image * psf_weightimage, axis=0)]. *)
Definition weighted_sum (sboxcar_bkgsub_image psf_weights : ndarray2) : result ndarray1 :=
  prod <- multiply sboxcar_bkgsub_image psf_weights ;;
  Ok (sum_axis0 prod).

(** The PSF-weighted extraction cell:
<<
    ext1d_psfweight = np.sum(sboxcar_bkgsub_image * psf_weightimage, axis=0)
    ext1d_psfweight *= 1e6 * s2d.meta.photometry.pixelarea_steradians
>> *)
Definition ext1d_psfweight (sboxcar_bkgsub_image psf_weights : ndarray2)
    (pixelarea_steradians : Q) : result ndarray1 :=
  ext1d <- weighted_sum sboxcar_bkgsub_image psf_weights ;;
  Ok (imul_scalar ext1d (1000000 * pixelarea_steradians)).

(** The "LRS region" cell, and the same statement of the PSF cell:
    [data_lrs_reg = np.transpose(s2d.data)]. *)
Definition data_lrs_reg (s2d_data : ndarray2) : ndarray2 := transpose s2d_data.

(** The cross-dispersion cuts the notebook plots:
<<
    y = np.arange(data_lrs_reg.shape[0])
    ax.plot(y, data_lrs_reg[:,300], 'k-')
>>
    the pair of the abscissas and the cut at dispersion pixel [k]. *)
Definition cross_dispersion_cut (image : ndarray2) (k : Z)
    : indexed (ndarray1 * ndarray1) :=
  match getcol image k with
  | Item cut => Item (arange (shape0 image), cut)
  | IndexError => IndexError
  end.

(** [gpts = ext1d > 0.], the columns the plots keep. *)
Definition gpts (ext1d : ndarray1) : boolarray := greater ext1d 0.

(** The points of a plotted spectrum, [(waves[gpts], ext1d[gpts])]. *)
Definition plotted_points (waves ext1d : ndarray1) (good : boolarray)
    : indexed (ndarray1 * ndarray1) :=
  match getitem_mask waves good, getitem_mask ext1d good with
  | Item w, Item f => Item (w, f)
  | _, _ => IndexError
  end.

End Notebook.

(** ** The module [spextract] *)

Module Spextract.

(** Modelled from the spec: the notebook imports [get_boxcar_weights],
    [ap_weight_images] and [extract_1dspec] from [spextract], whose file is
    not among the sources.  The definitions of this module follow sections
    3, 4.1, 4.2, 4.3 and 7 of the specification, which names them
    [build_aperture_weights], [extract] and [extract_1d]. *)
Record ApertureGeometry : Type := mkGeometry {
  center : Q;                (* spatial pixel coordinate *)
  width : Q;                 (* full aperture width in pixels *)
  bkg_offset : option Q;     (* centre to inner edge of the background bands *)
  bkg_width : option Q       (* width of each background band *)
}.

(** Modelled from the spec: the WavelengthMap of section 3, one wavelength per
    dispersion column; [None] is an invalid (non-finite) entry. *)
Record WavelengthMap : Type := mkWaves { n_waves : nat; wavelength : nat -> option Q }.

(** Modelled from the spec: a wavelength map with valid entries only. *)
Definition waves_of_list (l : list Q) : WavelengthMap :=
  {| n_waves := length l; wavelength := fun j => nth_error l j |}.

(** Modelled from the spec: section 4.1 step 1, the effective half-width of
    column [j]; [None] when it is not finite (no or an invalid wavelength,
    or a division by a zero reference wavelength). *)
Definition half_width (g : ApertureGeometry) (wavelengths : option WavelengthMap)
    (wavescale : option Q) (j : nat) : option Q :=
  match wavescale with
  | None => Some (width g / 2)
  | Some reference_wavelength =>
      match wavelengths with
      | None => None
      | Some waves =>
          match wavelength waves j with
          | None => None
          | Some w =>
              if Qeq_bool reference_wavelength 0 then None
              else Some ((width g / 2) * (w / reference_wavelength))
          end
      end
  end.

(** Modelled from the spec: "clipped to [[0,1]]". *)
Definition clip01 (x : Q) : Q := Qmax 0 (Qmin x 1).

(** Modelled from the spec: the centre coordinate of pixel [p], whose unit
    interval is [[p-0.5, p+0.5]]. *)
Definition pix (p : nat) : Q := inject_Z (Z.of_nat p).

(** Modelled from the spec: section 4.1 step 2, the fractional overlap of
    the unit pixel interval [[p-0.5, p+0.5]] with the aperture interval
    [[lo, hi]], clipped to [[0,1]]. *)
Definition overlap_weight (lo hi : Q) (p : nat) : Q :=
  clip01 (Qmin (pix p + (1#2)) hi - Qmax (pix p - (1#2)) lo).

(** Modelled from the spec: the signal weight of pixel [p] in column [j];
    a column whose half-width is not finite has all weights zero. *)
Definition signal_weight (g : ApertureGeometry) (wavelengths : option WavelengthMap)
    (wavescale : option Q) (p j : nat) : Q :=
  match half_width g wavelengths wavescale j with
  | None => 0
  | Some h => overlap_weight (center g - h) (center g + h) p
  end.

(** Modelled from the spec: section 4.1 step 3, the background is requested
    when both parameters are given and the band width is positive; the
    result is the pair (offset, width). *)
Definition background_requested (g : ApertureGeometry) : option (Q * Q) :=
  match bkg_offset g, bkg_width g with
  | Some off, Some bw => if Qle_bool bw 0 then None else Some (off, bw)
  | _, _ => None
  end.

(** Modelled from the spec: the two symmetric bands, weighted like the signal
    aperture, each on its own, and summed. *)
Definition band_weight (c off bw : Q) (p : nat) : Q :=
  overlap_weight (c - off - bw) (c - off) p + overlap_weight (c + off) (c + off + bw) p.

(** Modelled from the spec: section 4.1 step 4, the column is divided by its
    sum over the spatial axis unless that sum is zero. *)
Definition background_weight (c off bw : Q) (n_spatial : nat) (p : nat) : Q :=
  let column_sum := sum_upto (band_weight c off bw) n_spatial in
  if Qeq_bool column_sum 0 then band_weight c off bw p
  else band_weight c off bw p / column_sum.

(** Modelled from the spec: [build_aperture_weights(geometry, shape,
    wavelengths=None, wavescale=None) -> (signal_weights, background_weights)];
    a wavelength map of another length than the dispersion axis is a
    ShapeMismatch (section 7). *)
Definition build_aperture_weights (g : ApertureGeometry) (shape : nat * nat)
    (wavelengths : option WavelengthMap) (wavescale : option Q)
    : result (ndarray2 * option ndarray2) :=
  let '(n_spatial, n_dispersion) := shape in
  let fits := match wavelengths with
              | None => true
              | Some waves => (n_waves waves =? n_dispersion)%nat
              end in
  if fits then
    Ok ({| shape0 := n_spatial; shape1 := n_dispersion;
           item := signal_weight g wavelengths wavescale |},
        match background_requested g with
        | None => None
        | Some (off, bw) =>
            Some {| shape0 := n_spatial; shape1 := n_dispersion;
                    item := fun p _ => background_weight (center g) off bw n_spatial p |}
        end)
  else Raise ShapeMismatch.

(** Modelled from the spec: the dimensions of two images agree. *)
Definition same_shape (a b : ndarray2) : bool :=
  ((shape0 a =? shape0 b) && (shape1 a =? shape1 b))%nat.

(** Modelled from the spec: the zero vector. *)
Definition zeros (n : nat) : ndarray1 := {| len := n; item1 := fun _ => 0 |}.

(** Modelled from the spec: section 4.2, the Background Estimator,
    [bkg[j] = sum_p(data[p,j] * bkg_weight[p,j])]; no weights, the zero
    vector. *)
Definition background_level (image : ndarray2) (bkg_weights : option ndarray2)
    : result ndarray1 :=
  match bkg_weights with
  | None => Ok (zeros (shape1 image))
  | Some bw => prod <- multiply image bw ;; Ok (sum_axis0 prod)
  end.

(** Modelled from the spec: section 4.3, the Spectral Reducer,
    [extract(image, wavelengths, signal_weights, bkg_weights) ->
    (wavelengths_out, flux_out, intermediate_image)]; disagreeing dimensions
    fail fast (section 7). *)
Definition extract (image : ndarray2) (wavelengths : WavelengthMap)
    (signal_weights : ndarray2) (bkg_weights : option ndarray2)
    : result (WavelengthMap * ndarray1 * ndarray2) :=
  let agree :=
    (n_waves wavelengths =? shape1 image)%nat
    && same_shape signal_weights image
    && match bkg_weights with
       | None => true
       | Some bw => same_shape bw image
       end in
  if agree then
    bkg_level <- background_level image bkg_weights ;;
    corrected <- subtract image (tile bkg_level (shape0 image)) ;;
    weighted <- multiply corrected signal_weights ;;
    Ok (wavelengths, sum_axis0 weighted, corrected)
  else Raise ShapeMismatch.

(** Modelled from the spec: [extract_1d(image, wavelengths, center, width,
    bkg_offset=None, bkg_width=None, wavescale=None) -> (wavelengths, flux,
    corrected_image)], the mask builder followed by the reducer. *)
Definition extract_1d (image : ndarray2) (wavelengths : WavelengthMap)
    (center width : Q) (bkg_offset bkg_width wavescale : option Q)
    : result (WavelengthMap * ndarray1 * ndarray2) :=
  let g := mkGeometry center width bkg_offset bkg_width in
  weights <- build_aperture_weights g (shape0 image, shape1 image)
               (Some wavelengths) wavescale ;;
  extract image wavelengths (fst weights) (snd weights).

End Spextract.

Import Spextract.

(** ** Vocabulary of the statements *)

(** [masked = psf_raw * mask_weights], element by element. *)
Definition masked (psf_raw mask_weights : ndarray2) (p j : nat) : Q :=
  item psf_raw p j * item mask_weights p j.

(** [M] is the maximum over the spatial axis of column [j] of an image with
    [m] rows: an upper bound of the column that one of its pixels attains. *)
Definition is_col_peak (a : nat -> nat -> Q) (m j : nat) (M : Q) : Prop :=
  (forall p, (p < m)%nat -> a p j <= M) /\ (exists p, (p < m)%nat /\ a p j == M).

(** The column peak the notebook computes, and the divisor it uses. *)
Definition col_peak (a : ndarray2) (j : nat) : Q :=
  max_upto (fun p => item a p j) (pred (shape0 a)).

Definition guard (d : Q) : Q := if Qeq_bool d 0 then 1 else d.

(** [a.tolist()], every item as a reduced fraction. *)
Definition tolist (a : ndarray2) : list (list Q) :=
  map (fun p => map (fun j => Qred (item a p j)) (seq 0 (shape1 a))) (seq 0 (shape0 a)).

Definition tolist1 (v : ndarray1) : list Q :=
  map (fun j => Qred (item1 v j)) (seq 0 (len v)).

(** "In a column whose peak is 0 the normalised result is all zeros." *)
Definition zero_peak_column_is_zero (psf mask : ndarray2) : Prop :=
  exists out, Notebook.psf_weightimage psf mask = Ok out /\
    forall j, (j < shape1 psf)%nat ->
      is_col_peak (masked psf mask) (shape0 psf) j 0 ->
      forall p, (p < shape0 psf)%nat -> item out p j == 0.

(** "In a column whose peak is not 0 the normalised result is at most
    [bound]." *)
Definition nonzero_peak_column_at_most (bound : Q) (psf mask : ndarray2) : Prop :=
  exists out, Notebook.psf_weightimage psf mask = Ok out /\
    forall j, (j < shape1 psf)%nat ->
      forall M, is_col_peak (masked psf mask) (shape0 psf) j M -> ~ M == 0 ->
      forall p, (p < shape0 psf)%nat -> item out p j <= bound.

(** "Normalising the normalised image returns it unchanged." *)
Definition normalization_idempotent (a : ndarray2) : Prop :=
  exists o1 o2, Notebook.normalize_columns a = Ok o1 /\
    Notebook.normalize_columns o1 = Ok o2 /\ same2 o2 o1.

(** The unit interval of pixel [p] and the interval [[lo, hi]] share more
    than a point. *)
Definition meets (lo hi : Q) (p : nat) : Prop :=
  Qmax (pix p - (1#2)) lo < Qmin (pix p + (1#2)) hi.

(** Pixel [p] is a background pixel: it meets one of the two bands. *)
Definition background_pixel (c off bw : Q) (p : nat) : Prop :=
  meets (c - off - bw) (c - off) p \/ meets (c + off) (c + off + bw) p.

(** A sequence with possibly invalid entries is monotonic over its first
    [n] indices, the invalid entries left out. *)
Definition nondecreasing (n : nat) (f : nat -> option Q) : Prop :=
  forall i j x y, (i <= j < n)%nat -> f i = Some x -> f j = Some y -> x <= y.

Definition nonincreasing (n : nat) (f : nat -> option Q) : Prop :=
  forall i j x y, (i <= j < n)%nat -> f i = Some x -> f j = Some y -> y <= x.

(** "In a column whose signal aperture lies within the bounds of the image
    the signal weights add up to [min(width, n_spatial)]", within the
    tolerance [eps]. *)
Definition column_sum_is_min_width (eps : Q) (g : ApertureGeometry)
    (n_spatial n_dispersion : nat) (wavelengths : option WavelengthMap)
    (wavescale : option Q) (j : nat) : Prop :=
  0 < width g ->
  forall h, half_width g wavelengths wavescale j = Some h ->
  -(1#2) <= center g - h -> center g + h <= pix n_spatial - (1#2) ->
  exists sw bkg,
    build_aperture_weights g (n_spatial, n_dispersion) wavelengths wavescale
      = Ok (sw, bkg) /\
    Qmin (width g) (pix n_spatial) - eps
      <= sum_upto (fun p => item sw p j) n_spatial
      <= Qmin (width g) (pix n_spatial) + eps.

(** Every [Qmax] and [Qmin] of the goal becomes a variable with its two
    cases, for linear arithmetic. *)
Ltac minmax :=
  repeat match goal with
  | |- context [Qmax ?a ?b] =>
      let H := fresh "Hmax" in
      let m := fresh "m" in
      pose proof (Q.max_spec a b) as H;
      set (m := Qmax a b) in *; clearbody m; revert H
  | |- context [Qmin ?a ?b] =>
      let H := fresh "Hmin" in
      let m := fresh "m" in
      pose proof (Q.min_spec a b) as H;
      set (m := Qmin a b) in *; clearbody m; revert H
  end.

(** ** numpy operations: basic facts *)

Lemma bdim_same (m : nat) : bdim m m = Some m.
Proof. unfold bdim. now rewrite Nat.eqb_refl. Qed.

Lemma bidx_lt (m p : nat) : (p < m)%nat -> bidx m p = p.
Proof.
  unfold bidx. destruct (Nat.eqb_spec m 1) as [-> | _]; [lia | reflexivity].
Qed.

Lemma all_items_intro (m n : nat) (P : nat -> nat -> bool) :
  (forall p j, (p < m)%nat -> (j < n)%nat -> P p j = true) -> all_items m n P = true.
Proof.
  intros H. unfold all_items.
  apply forallb_forall. intros p Hp. apply in_seq in Hp.
  apply forallb_forall. intros j Hj. apply in_seq in Hj.
  apply H; lia.
Qed.

Lemma max_upto_upper (f : nat -> Q) (k p : nat) :
  (p <= k)%nat -> f p <= max_upto f k.
Proof.
  induction k as [|k IH]; intros Hp; simpl.
  - replace p with 0%nat by lia. apply Qle_refl.
  - destruct (Nat.eq_dec p (S k)) as [-> | Hne].
    + apply Q.le_max_r.
    + eapply Qle_trans; [apply IH; lia | apply Q.le_max_l].
Qed.

Lemma max_upto_attained (f : nat -> Q) (k : nat) :
  exists p, (p <= k)%nat /\ f p == max_upto f k.
Proof.
  induction k as [|k [p [Hp Hf]]]; simpl.
  - exists 0%nat. split; [lia | reflexivity].
  - destruct (Q.max_spec (max_upto f k) (f (S k))) as [[_ E] | [_ E]].
    + exists (S k). split; [lia | now rewrite E].
    + exists p. split; [lia | now rewrite E].
Qed.

Lemma col_peak_is_peak (a : ndarray2) (j : nat) :
  (0 < shape0 a)%nat -> is_col_peak (item a) (shape0 a) j (col_peak a j).
Proof.
  intros Hm. unfold is_col_peak, col_peak. split.
  - intros p Hp. apply (max_upto_upper (fun q => item a q j)). lia.
  - destruct (max_upto_attained (fun q => item a q j) (pred (shape0 a))) as [p [Hp E]].
    exists p. split; [lia | exact E].
Qed.

(** A column has one peak only. *)
Lemma is_col_peak_unique (a : nat -> nat -> Q) (m j : nat) (M N : Q) :
  is_col_peak a m j M -> is_col_peak a m j N -> M == N.
Proof.
  intros [UM [p [Hp EM]]] [UN [q [Hq EN]]].
  specialize (UM q Hq). specialize (UN p Hp). lra.
Qed.

Lemma is_col_peak_ext (a b : nat -> nat -> Q) (m j : nat) (M : Q) :
  (forall p, (p < m)%nat -> a p j == b p j) ->
  is_col_peak a m j M -> is_col_peak b m j M.
Proof.
  intros E [U [p [Hp Ep]]]. split.
  - intros q Hq. rewrite <- (E q Hq). now apply U.
  - exists p. split; [exact Hp | now rewrite <- (E p Hp)].
Qed.

Lemma sum_upto_ext (f g : nat -> Q) (m : nat) :
  (forall p, (p < m)%nat -> f p == g p) -> sum_upto f m == sum_upto g m.
Proof.
  induction m as [|m IH]; intros E; simpl.
  - reflexivity.
  - rewrite IH by (intros; apply E; lia). rewrite (E m) by lia. reflexivity.
Qed.

Lemma guard_nonzero (d : Q) : ~ guard d == 0.
Proof.
  unfold guard. destruct (Qeq_bool d 0) eqn:E.
  - lra.
  - now apply Qeq_bool_neq.
Qed.

Lemma guard_zero (d : Q) : d == 0 -> guard d = 1.
Proof.
  intros H. unfold guard. apply Qeq_bool_iff in H. now rewrite H.
Qed.

Lemma guard_other (d : Q) : ~ d == 0 -> guard d = d.
Proof.
  intros H. unfold guard. destruct (Qeq_bool d 0) eqn:E; [|reflexivity].
  apply Qeq_bool_iff in E. contradiction.
Qed.

(** ** The notebook's normalisation, item by item *)

Lemma multiply_same_shape (a b : ndarray2) :
  shape0 b = shape0 a -> shape1 b = shape1 a ->
  exists c, multiply a b = Ok c /\ shape0 c = shape0 a /\ shape1 c = shape1 a /\
    forall p j, (p < shape0 a)%nat -> (j < shape1 a)%nat ->
      item c p j = item a p j * item b p j.
Proof.
  intros H0 H1. unfold multiply, binop. rewrite H0, H1, !bdim_same.
  eexists. split; [reflexivity|]. simpl. repeat split.
  intros p j Hp Hj. now rewrite !bidx_lt.
Qed.

Lemma subtract_same_shape (a b : ndarray2) :
  shape0 b = shape0 a -> shape1 b = shape1 a ->
  exists c, subtract a b = Ok c /\ shape0 c = shape0 a /\ shape1 c = shape1 a /\
    forall p j, (p < shape0 a)%nat -> (j < shape1 a)%nat ->
      item c p j = item a p j - item b p j.
Proof.
  intros H0 H1. unfold subtract, binop. rewrite H0, H1, !bdim_same.
  eexists. split; [reflexivity|]. simpl. repeat split.
  intros p j Hp Hj. now rewrite !bidx_lt.
Qed.

(** On an image with at least one row the normalisation returns, and every
    pixel is divided by the guarded peak of its column. *)
Lemma normalize_columns_items (a : ndarray2) :
  (0 < shape0 a)%nat ->
  exists out, Notebook.normalize_columns a = Ok out /\
    shape0 out = shape0 a /\ shape1 out = shape1 a /\
    forall p j, (p < shape0 a)%nat -> (j < shape1 a)%nat ->
      item out p j = item a p j / guard (col_peak a j).
Proof.
  intros Hm. unfold Notebook.normalize_columns, amax_axis0, col_peak.
  destruct (shape0 a) as [|k] eqn:Ea; [lia|]. simpl bind.
  unfold idivide. simpl shape0. simpl shape1. rewrite Ea, !bdim_same, !Nat.eqb_refl.
  simpl andb. cbv iota.
  rewrite all_items_intro.
  - eexists. split; [reflexivity|]. simpl. repeat split.
    intros p j Hp Hj. rewrite !bidx_lt by lia. reflexivity.
  - intros p j Hp Hj. simpl. rewrite !bidx_lt by lia.
    apply negb_true_iff. apply not_true_iff_false. intros E.
    apply Qeq_bool_iff in E. now apply (guard_nonzero _ E).
Qed.

(** The whole cell on two images of one shape with at least one row. *)
Lemma psf_weightimage_items (psf mask : ndarray2) :
  shape0 mask = shape0 psf -> shape1 mask = shape1 psf -> (0 < shape0 psf)%nat ->
  exists out peak, Notebook.psf_weightimage psf mask = Ok out /\
    shape0 out = shape0 psf /\ shape1 out = shape1 psf /\
    (forall j, (j < shape1 psf)%nat ->
       is_col_peak (masked psf mask) (shape0 psf) j (peak j)) /\
    forall p j, (p < shape0 psf)%nat -> (j < shape1 psf)%nat ->
      item out p j = masked psf mask p j / guard (peak j).
Proof.
  intros H0 H1 Hm. unfold Notebook.psf_weightimage.
  destruct (multiply_same_shape psf mask H0 H1) as [c [Ec [S0 [S1 Ic]]]].
  rewrite Ec. simpl bind.
  destruct (normalize_columns_items c) as [out [Eo [T0 [T1 Io]]]]; [lia|].
  exists out, (col_peak c). rewrite Eo. repeat split; try congruence.
  - intros p Hp. unfold masked. rewrite <- Ic by assumption.
    destruct (col_peak_is_peak c j) as [U _]; [lia|]. apply U. lia.
  - destruct (col_peak_is_peak c j) as [_ [p [Hp E]]]; [lia|].
    exists p. split; [lia|]. unfold masked. rewrite <- Ic by (assumption || lia).
    exact E.
  - intros p j Hp Hj. unfold masked. rewrite <- Ic by assumption.
    apply Io; lia.
Qed.

(** Without rows there is no column maximum: [np.max] raises. *)
Lemma psf_weightimage_empty (psf mask : ndarray2) :
  shape0 mask = shape0 psf -> shape1 mask = shape1 psf -> shape0 psf = 0%nat ->
  Notebook.psf_weightimage psf mask = Raise ValueError.
Proof.
  intros H0 H1 Hm. unfold Notebook.psf_weightimage.
  destruct (multiply_same_shape psf mask H0 H1) as [c [Ec [S0 _]]].
  rewrite Ec. simpl bind. unfold Notebook.normalize_columns, amax_axis0.
  now rewrite S0, Hm.
Qed.

Lemma normalize_columns_empty (a : ndarray2) :
  shape0 a = 0%nat -> Notebook.normalize_columns a = Raise ValueError.
Proof.
  intros Hm. unfold Notebook.normalize_columns, amax_axis0. now rewrite Hm.
Qed.

Lemma div_guard_zero (x d : Q) : d == 0 -> x / guard d == x.
Proof. intros H. rewrite (guard_zero d H). field. Qed.

Lemma div_guard_other (x d : Q) : ~ d == 0 -> x / guard d == x / d.
Proof. intros H. now rewrite (guard_other d H). Qed.

Lemma div_le_pos (x y d : Q) : 0 < d -> x <= y -> x / d <= y / d.
Proof.
  intros Hd Hxy. unfold Qdiv. apply Qmult_le_compat_r; [exact Hxy|].
  apply Qlt_le_weak. now apply Qinv_lt_0_compat.
Qed.

Lemma div_self (d : Q) : ~ d == 0 -> d / d == 1.
Proof. intros H. now field. Qed.

(** Dividing a column by a positive number divides its peak. *)
Lemma is_col_peak_div (a b : nat -> nat -> Q) (m j : nat) (M d : Q) :
  0 < d -> (forall p, (p < m)%nat -> b p j == a p j / d) ->
  is_col_peak a m j M -> is_col_peak b m j (M / d).
Proof.
  intros Hd E [U [p [Hp Ep]]]. split.
  - intros q Hq. rewrite (E q Hq). apply div_le_pos; [exact Hd | now apply U].
  - exists p. split; [exact Hp|]. rewrite (E p Hp). now rewrite Ep.
Qed.

(** ** The PSF weight normaliser *)

(** C2. For a raw PSF image and a mask image of the same shape the cell
    returns (it raises only when the images have no row, where no column
    maximum exists), the result has the shape of the inputs, every column
    [j] has a maximum [M] of [masked = psf_raw * mask_weights] over the
    spatial axis, and [out[p,j] = masked[p,j] / M] where [M] is not zero,
    [out[p,j] = masked[p,j]] where it is. *)
Theorem normalize_psf_weights_items (psf mask : ndarray2) :
  shape0 mask = shape0 psf -> shape1 mask = shape1 psf ->
  match Notebook.psf_weightimage psf mask with
  | Ok out =>
      (0 < shape0 psf)%nat /\ shape0 out = shape0 psf /\ shape1 out = shape1 psf /\
      forall j, (j < shape1 psf)%nat ->
        (exists M, is_col_peak (masked psf mask) (shape0 psf) j M) /\
        forall M, is_col_peak (masked psf mask) (shape0 psf) j M ->
        forall p, (p < shape0 psf)%nat ->
          (~ M == 0 -> item out p j == masked psf mask p j / M) /\
          (M == 0 -> item out p j == masked psf mask p j)
  | Raise e => shape0 psf = 0%nat /\ e = ValueError
  end.
Proof.
  intros H0 H1. destruct (Nat.eq_dec (shape0 psf) 0) as [Hz | Hnz].
  - rewrite (psf_weightimage_empty psf mask H0 H1 Hz). now split.
  - destruct (psf_weightimage_items psf mask H0 H1) as [out [peak [E [S0 [S1 [Pk It]]]]]];
      [lia|].
    rewrite E. split; [lia|]. split; [exact S0|]. split; [exact S1|].
    intros j Hj. split; [exists (peak j); now apply Pk|].
    intros M HM p Hp.
    assert (EM : peak j == M) by (eapply is_col_peak_unique; [now apply Pk | exact HM]).
    rewrite (It p j Hp Hj). split; intros HM0.
    + rewrite div_guard_other by (rewrite EM; exact HM0). now rewrite EM.
    + apply div_guard_zero. now rewrite EM.
Qed.

Lemma normalize_psf_weights_items_witness :
  let psf := array [[1; 2]; [3; 4]] in
  let mask := array [[1; 0]; [1; 1]] in
  shape0 mask = shape0 psf /\ shape1 mask = shape1 psf /\
  match Notebook.psf_weightimage psf mask with
  | Ok out =>
      (0 < shape0 psf)%nat /\ shape0 out = shape0 psf /\ shape1 out = shape1 psf /\
      forall j, (j < shape1 psf)%nat ->
        (exists M, is_col_peak (masked psf mask) (shape0 psf) j M) /\
        forall M, is_col_peak (masked psf mask) (shape0 psf) j M ->
        forall p, (p < shape0 psf)%nat ->
          (~ M == 0 -> item out p j == masked psf mask p j / M) /\
          (M == 0 -> item out p j == masked psf mask p j)
  | Raise e => shape0 psf = 0%nat /\ e = ValueError
  end.
Proof.
  intros psf mask. split; [reflexivity|]. split; [reflexivity|].
  apply (normalize_psf_weights_items psf mask); reflexivity.
Defined.

(** C9. Where the mask weight is 0 the normalised PSF weight is 0: for
    images of one shape the cell returns (it raises only on images without
    rows) and [out[p,j] = 0] at every pixel with [mask_weights[p,j] = 0]. *)
Theorem masked_out_pixel_stays_zero (psf mask : ndarray2) :
  shape0 mask = shape0 psf -> shape1 mask = shape1 psf ->
  match Notebook.psf_weightimage psf mask with
  | Ok out =>
      (0 < shape0 psf)%nat /\
      forall p j, (p < shape0 psf)%nat -> (j < shape1 psf)%nat ->
        item mask p j == 0 -> item out p j == 0
  | Raise e => shape0 psf = 0%nat /\ e = ValueError
  end.
Proof.
  intros H0 H1. destruct (Nat.eq_dec (shape0 psf) 0) as [Hz | Hnz].
  - rewrite (psf_weightimage_empty psf mask H0 H1 Hz). now split.
  - destruct (psf_weightimage_items psf mask H0 H1) as [out [peak [E [_ [_ [_ It]]]]]];
      [lia|].
    rewrite E. split; [lia|]. intros p j Hp Hj Hz.
    rewrite (It p j Hp Hj). unfold masked, Qdiv. rewrite Hz. ring.
Qed.

Lemma masked_out_pixel_stays_zero_witness :
  let psf := array [[1; 2]; [3; 4]] in
  let mask := array [[1; 0]; [1; 1]] in
  shape0 mask = shape0 psf /\ shape1 mask = shape1 psf /\
  match Notebook.psf_weightimage psf mask with
  | Ok out =>
      (0 < shape0 psf)%nat /\
      forall p j, (p < shape0 psf)%nat -> (j < shape1 psf)%nat ->
        item mask p j == 0 -> item out p j == 0
  | Raise e => shape0 psf = 0%nat /\ e = ValueError
  end.
Proof.
  intros psf mask. split; [reflexivity|]. split; [reflexivity|].
  apply (masked_out_pixel_stays_zero psf mask); reflexivity.
Defined.

(** Runs of the cell on small images. *)
Example psf_weightimage_run :
  match Notebook.psf_weightimage (array [[1; 2]; [3; 4]]) (array [[1; 0]; [1; 1]]) with
  | Ok out => tolist out
  | Raise _ => []
  end = [[1 # 3; 0]; [1; 1]].
Proof. vm_compute. reflexivity. Qed.

Example psf_weightimage_run_negative :
  match Notebook.psf_weightimage (array [[-2]; [-4]]) (array [[1]; [1]]) with
  | Ok out => tolist out
  | Raise _ => []
  end = [[1]; [2]].
Proof. vm_compute. reflexivity. Qed.

Example psf_weightimage_run_zero_peak :
  match Notebook.psf_weightimage (array [[0]; [-3]]) (array [[1]; [1]]) with
  | Ok out => tolist out
  | Raise _ => []
  end = [[0]; [-3]].
Proof. vm_compute. reflexivity. Qed.

Example normalize_columns_run_twice :
  match Notebook.normalize_columns (array [[-2]; [-4]]) with
  | Ok o1 =>
      match Notebook.normalize_columns o1 with
      | Ok o2 => (tolist o1, tolist o2)
      | Raise _ => ([], [])
      end
  | Raise _ => ([], [])
  end = ([[1]; [2]], [[1 # 2]; [1]]).
Proof. vm_compute. reflexivity. Qed.

Example psf_weightimage_run_no_rows :
  Notebook.psf_weightimage (array []) (array []) = Raise ValueError.
Proof. reflexivity. Qed.

(** C6, as amended.  The cell never raises a division error: on images of
    one shape it returns, and raises ([ValueError]) only on images without
    rows.  In a column whose peak is 0 the result is the masked column
    unchanged, so it is 0 at every pixel whose masked value is not
    negative. *)
Theorem zero_peak_column_unchanged (psf mask : ndarray2) :
  shape0 mask = shape0 psf -> shape1 mask = shape1 psf ->
  match Notebook.psf_weightimage psf mask with
  | Ok out =>
      (0 < shape0 psf)%nat /\
      forall j, (j < shape1 psf)%nat ->
        is_col_peak (masked psf mask) (shape0 psf) j 0 ->
        forall p, (p < shape0 psf)%nat ->
          item out p j == masked psf mask p j /\
          (0 <= masked psf mask p j -> item out p j == 0)
  | Raise e => shape0 psf = 0%nat /\ e = ValueError
  end.
Proof.
  intros H0 H1. destruct (Nat.eq_dec (shape0 psf) 0) as [Hz | Hnz].
  - rewrite (psf_weightimage_empty psf mask H0 H1 Hz). now split.
  - destruct (psf_weightimage_items psf mask H0 H1) as [out [peak [E [_ [_ [Pk It]]]]]];
      [lia|].
    rewrite E. split; [lia|]. intros j Hj HM p Hp.
    assert (EM : peak j == 0) by (eapply is_col_peak_unique; [now apply Pk | exact HM]).
    assert (Eo : item out p j == masked psf mask p j).
    { rewrite (It p j Hp Hj). now apply div_guard_zero. }
    split; [exact Eo|]. intros Hge.
    destruct HM as [U _]. specialize (U p Hp). lra.
Qed.

Lemma zero_peak_column_unchanged_witness :
  let psf := array [[0; 2]; [-3; 4]] in
  let mask := array [[1; 0]; [1; 1]] in
  shape0 mask = shape0 psf /\ shape1 mask = shape1 psf /\
  match Notebook.psf_weightimage psf mask with
  | Ok out =>
      (0 < shape0 psf)%nat /\
      forall j, (j < shape1 psf)%nat ->
        is_col_peak (masked psf mask) (shape0 psf) j 0 ->
        forall p, (p < shape0 psf)%nat ->
          item out p j == masked psf mask p j /\
          (0 <= masked psf mask p j -> item out p j == 0)
  | Raise e => shape0 psf = 0%nat /\ e = ValueError
  end.
Proof.
  intros psf mask. split; [reflexivity|]. split; [reflexivity|].
  apply (zero_peak_column_unchanged psf mask); reflexivity.
Defined.

(** C6, as stated, fails: the column [[0, -3]] under the mask [[1, 1]] has
    peak 0 and comes out as [[0, -3]], not as zeros. *)
Lemma zero_peak_column_is_zero_fails :
  ~ zero_peak_column_is_zero (array [[0]; [-3]]) (array [[1]; [1]]).
Proof.
  intros [out [E H]].
  destruct (psf_weightimage_items (array [[0]; [-3]]) (array [[1]; [1]])
              eq_refl eq_refl) as [out' [peak [E' [_ [_ [Pk It]]]]]]; [simpl; lia|].
  rewrite E in E'. injection E' as <-.
  assert (P0 : is_col_peak (masked (array [[0]; [-3]]) (array [[1]; [1]])) 2 0 0).
  { split.
    - intros [|[|p]] Hp; [vm_compute; discriminate | vm_compute; discriminate | lia].
    - exists 0%nat. split; [lia | reflexivity]. }
  specialize (H 0%nat ltac:(simpl; lia) P0 1%nat ltac:(simpl; lia)).
  rewrite (It 1%nat 0%nat) in H by (simpl; lia).
  rewrite div_guard_zero in H.
  - vm_compute in H. discriminate H.
  - eapply is_col_peak_unique; [apply Pk; simpl; lia | exact P0].
Qed.

Lemma is_col_peak_eq (a : nat -> nat -> Q) (m j : nat) (M N : Q) :
  M == N -> is_col_peak a m j M -> is_col_peak a m j N.
Proof.
  intros E [U [p [Hp Ep]]]. split.
  - intros q Hq. rewrite <- E. now apply U.
  - exists p. split; [exact Hp | now rewrite Ep].
Qed.

Lemma guard_pos (d : Q) : 0 <= d -> 0 < guard d.
Proof.
  intros H. unfold guard. destruct (Qeq_bool d 0) eqn:E; [lra|].
  apply Qeq_bool_neq in E. lra.
Qed.

(** C7, as amended.  On images of one shape the cell returns (it raises only
    on images without rows); in every column whose peak is positive the
    result has maximum exactly 1, hence is at most [1 + eps] for every
    tolerance [eps >= 0]; and in every column whose mask weights are all 0
    the result is 0 at every pixel. *)
Theorem positive_peak_column_max_is_one (psf mask : ndarray2) :
  shape0 mask = shape0 psf -> shape1 mask = shape1 psf ->
  match Notebook.psf_weightimage psf mask with
  | Ok out =>
      (0 < shape0 psf)%nat /\
      forall j, (j < shape1 psf)%nat ->
        (forall M, is_col_peak (masked psf mask) (shape0 psf) j M -> 0 < M ->
           is_col_peak (item out) (shape0 psf) j 1 /\
           forall eps p, 0 <= eps -> (p < shape0 psf)%nat -> item out p j <= 1 + eps) /\
        ((forall p, (p < shape0 psf)%nat -> item mask p j == 0) ->
         forall p, (p < shape0 psf)%nat -> item out p j == 0)
  | Raise e => shape0 psf = 0%nat /\ e = ValueError
  end.
Proof.
  intros H0 H1. destruct (Nat.eq_dec (shape0 psf) 0) as [Hz | Hnz].
  - rewrite (psf_weightimage_empty psf mask H0 H1 Hz). now split.
  - destruct (psf_weightimage_items psf mask H0 H1) as [out [peak [E [_ [_ [Pk It]]]]]];
      [lia|].
    rewrite E. split; [lia|]. intros j Hj. split.
    + intros M HM Mpos.
      assert (EM : peak j == M) by (eapply is_col_peak_unique; [now apply Pk | exact HM]).
      assert (P1 : is_col_peak (item out) (shape0 psf) j 1).
      { apply (is_col_peak_eq _ _ _ (peak j / guard (peak j))).
        - rewrite div_guard_other by lra. apply div_self. lra.
        - apply (is_col_peak_div (masked psf mask)).
          + apply guard_pos. lra.
          + intros p Hp. now rewrite (It p j Hp Hj).
          + now apply Pk. }
      split; [exact P1|]. intros eps p Heps Hp.
      destruct P1 as [U _]. specialize (U p Hp). lra.
    + intros Hmask p Hp. rewrite (It p j Hp Hj). unfold masked, Qdiv.
      rewrite (Hmask p Hp). ring.
Qed.

Lemma positive_peak_column_max_is_one_witness :
  let psf := array [[1; 2]; [3; 4]] in
  let mask := array [[1; 0]; [1; 0]] in
  shape0 mask = shape0 psf /\ shape1 mask = shape1 psf /\
  match Notebook.psf_weightimage psf mask with
  | Ok out =>
      (0 < shape0 psf)%nat /\
      forall j, (j < shape1 psf)%nat ->
        (forall M, is_col_peak (masked psf mask) (shape0 psf) j M -> 0 < M ->
           is_col_peak (item out) (shape0 psf) j 1 /\
           forall eps p, 0 <= eps -> (p < shape0 psf)%nat -> item out p j <= 1 + eps) /\
        ((forall p, (p < shape0 psf)%nat -> item mask p j == 0) ->
         forall p, (p < shape0 psf)%nat -> item out p j == 0)
  | Raise e => shape0 psf = 0%nat /\ e = ValueError
  end.
Proof.
  intros psf mask. split; [reflexivity|]. split; [reflexivity|].
  apply (positive_peak_column_max_is_one psf mask); reflexivity.
Defined.

(** C7, as stated, fails: the column [[-2, -4]] under the mask [[1, 1]] has
    the nonzero peak -2 and comes out as [[1, 2]], above 1 plus a
    tolerance. *)
Lemma nonzero_peak_column_at_most_fails :
  ~ nonzero_peak_column_at_most (1 + (1 # 1000000)) (array [[-2]; [-4]]) (array [[1]; [1]]).
Proof.
  intros [out [E H]].
  destruct (psf_weightimage_items (array [[-2]; [-4]]) (array [[1]; [1]])
              eq_refl eq_refl) as [out' [peak [E' [_ [_ [Pk It]]]]]]; [simpl; lia|].
  rewrite E in E'. injection E' as <-.
  assert (P0 : is_col_peak (masked (array [[-2]; [-4]]) (array [[1]; [1]])) 2 0 (-2)).
  { split.
    - intros [|[|p]] Hp; [vm_compute; discriminate | vm_compute; discriminate | lia].
    - exists 0%nat. split; [lia | reflexivity]. }
  assert (EM : peak 0%nat == -2).
  { eapply is_col_peak_unique; [apply Pk; simpl; lia | exact P0]. }
  assert (N2 : ~ -2 == 0) by (intros C; vm_compute in C; discriminate C).
  specialize (H 0%nat ltac:(simpl; lia) (-2) P0 N2 1%nat ltac:(simpl; lia)).
  rewrite (It 1%nat 0%nat) in H by (simpl; lia).
  rewrite div_guard_other in H by (rewrite EM; exact N2).
  rewrite EM in H. vm_compute in H. now apply H.
Qed.

(** C10, as amended.  On an image none of whose column peaks is negative the
    normalisation step is idempotent: it returns (it raises only on an image
    without rows), every column whose peak is not 0 has peak exactly 1
    afterwards, and normalising the result again returns the same array. *)
Theorem normalize_columns_idempotent (a : ndarray2) :
  (forall j M, (j < shape1 a)%nat -> is_col_peak (item a) (shape0 a) j M -> 0 <= M) ->
  match Notebook.normalize_columns a with
  | Ok o1 =>
      (0 < shape0 a)%nat /\
      (forall j M, (j < shape1 a)%nat -> is_col_peak (item a) (shape0 a) j M ->
         ~ M == 0 -> is_col_peak (item o1) (shape0 a) j 1) /\
      exists o2, Notebook.normalize_columns o1 = Ok o2 /\ same2 o2 o1
  | Raise e => shape0 a = 0%nat /\ e = ValueError
  end.
Proof.
  intros Hnn. destruct (Nat.eq_dec (shape0 a) 0) as [Hz | Hnz].
  - rewrite (normalize_columns_empty a Hz). now split.
  - destruct (normalize_columns_items a) as [o1 [E1 [S0 [S1 I1]]]]; [lia|].
    rewrite E1. split; [lia|].
    assert (Pk : forall j, (j < shape1 a)%nat ->
              is_col_peak (item a) (shape0 a) j (col_peak a j) /\ 0 <= col_peak a j).
    { intros j Hj. assert (P := col_peak_is_peak a j ltac:(lia)).
      split; [exact P | now apply (Hnn j)]. }
    assert (P1 : forall j, (j < shape1 a)%nat ->
              is_col_peak (item o1) (shape0 a) j (col_peak a j / guard (col_peak a j))).
    { intros j Hj. destruct (Pk j Hj) as [P Hge].
      apply (is_col_peak_div (item a)); [now apply guard_pos | | exact P].
      intros p Hp. now rewrite (I1 p j Hp Hj). }
    split.
    + intros j M Hj HM Mnz. destruct (Pk j Hj) as [P _].
      assert (EM : col_peak a j == M) by (eapply is_col_peak_unique; eassumption).
      apply (is_col_peak_eq _ _ _ (col_peak a j / guard (col_peak a j)));
        [| now apply P1].
      rewrite div_guard_other by (rewrite EM; exact Mnz).
      apply div_self. rewrite EM. exact Mnz.
    + destruct (normalize_columns_items o1) as [o2 [E2 [T0 [T1 I2]]]]; [lia|].
      exists o2. split; [exact E2|]. split; [exact T0|]. split; [exact T1|].
      intros p j Hp Hj. rewrite T0 in Hp. rewrite T1 in Hj.
      rewrite (I2 p j Hp Hj).
      assert (Q1 : is_col_peak (item o1) (shape0 a) j (col_peak o1 j)).
      { rewrite <- S0. apply col_peak_is_peak. lia. }
      assert (EQ : col_peak o1 j == col_peak a j / guard (col_peak a j)).
      { eapply is_col_peak_unique; [exact Q1 | apply P1; lia]. }
      destruct (Pk j ltac:(lia)) as [_ Hge].
      destruct (Qeq_dec (col_peak a j) 0) as [Z | NZ].
      * apply div_guard_zero. rewrite EQ, (div_guard_zero _ _ Z). exact Z.
      * rewrite div_guard_other.
        -- rewrite EQ, div_guard_other by exact NZ.
           rewrite div_self by exact NZ. field.
        -- rewrite EQ, div_guard_other by exact NZ.
           rewrite div_self by exact NZ. lra.
Qed.

Lemma normalize_columns_idempotent_witness :
  let a := array [[1; 0]; [3; 0]] in
  (forall j M, (j < shape1 a)%nat -> is_col_peak (item a) (shape0 a) j M -> 0 <= M) /\
  match Notebook.normalize_columns a with
  | Ok o1 =>
      (0 < shape0 a)%nat /\
      (forall j M, (j < shape1 a)%nat -> is_col_peak (item a) (shape0 a) j M ->
         ~ M == 0 -> is_col_peak (item o1) (shape0 a) j 1) /\
      exists o2, Notebook.normalize_columns o1 = Ok o2 /\ same2 o2 o1
  | Raise e => shape0 a = 0%nat /\ e = ValueError
  end.
Proof.
  intros a.
  assert (Hnn : forall j M, (j < shape1 a)%nat ->
            is_col_peak (item a) (shape0 a) j M -> 0 <= M).
  { intros j M Hj [U _]. specialize (U 0%nat ltac:(simpl; lia)).
    destruct j as [|[|j]]; simpl in U, Hj; [lra | lra | lia]. }
  split; [exact Hnn|].
  apply (normalize_columns_idempotent a Hnn).
Defined.

(** C10, as stated, fails: the column [[-2, -4]] is normalised to [[1, 2]],
    whose peak is 2, and normalising again gives [[1/2, 1]]. *)
Lemma normalization_idempotent_fails :
  ~ normalization_idempotent (array [[-2]; [-4]]).
Proof.
  intros [o1 [o2 [E1 [E2 [_ [_ S]]]]]].
  destruct (normalize_columns_items (array [[-2]; [-4]])) as [o1' [E1' [S0 [S1 I1]]]];
    [simpl; lia|].
  rewrite E1 in E1'. injection E1' as <-.
  destruct (normalize_columns_items o1) as [o2' [E2' [T0 [T1 I2]]]];
    [rewrite S0; simpl; lia|].
  rewrite E2 in E2'. injection E2' as <-.
  assert (L0 : (1 < shape0 o2)%nat) by (rewrite T0, S0; simpl; lia).
  assert (L1 : (0 < shape1 o2)%nat) by (rewrite T1, S1; simpl; lia).
  specialize (S 1%nat 0%nat L0 L1).
  rewrite (I2 1%nat 0%nat) in S by (rewrite S0 || rewrite S1; simpl; lia).
  unfold col_peak in S at 1. rewrite S0 in S. simpl pred in S. simpl max_upto in S.
  rewrite !I1 in S by (simpl; lia).
  vm_compute in S. discriminate S.
Qed.

(** ** The weighted sum and the reducer *)

Lemma weighted_sum_items (a b : ndarray2) :
  shape0 b = shape0 a -> shape1 b = shape1 a ->
  exists v, Notebook.weighted_sum a b = Ok v /\ len v = shape1 a /\
    forall j, (j < shape1 a)%nat ->
      item1 v j == sum_upto (fun p => item a p j * item b p j) (shape0 a).
Proof.
  intros H0 H1. unfold Notebook.weighted_sum.
  destruct (multiply_same_shape a b H0 H1) as [c [Ec [S0 [S1 Ic]]]].
  rewrite Ec. simpl bind. eexists. split; [reflexivity|]. simpl.
  split; [exact S1|]. intros j Hj. rewrite S0.
  apply sum_upto_ext. intros p Hp. now rewrite Ic.
Qed.

Lemma ext1d_psfweight_items (a b : ndarray2) (pixelarea_steradians : Q) :
  shape0 b = shape0 a -> shape1 b = shape1 a ->
  exists v, Notebook.ext1d_psfweight a b pixelarea_steradians = Ok v /\
    len v = shape1 a /\
    forall j, (j < shape1 a)%nat ->
      item1 v j == sum_upto (fun p => item a p j * item b p j) (shape0 a)
                   * (1000000 * pixelarea_steradians).
Proof.
  intros H0 H1. unfold Notebook.ext1d_psfweight.
  destruct (weighted_sum_items a b H0 H1) as [s [Es [L Is]]].
  rewrite Es. simpl bind. eexists. split; [reflexivity|]. simpl.
  split; [exact L|]. intros j Hj. now rewrite Is.
Qed.

Lemma Qminus_zero (x : Q) : x - 0 = x.
Proof.
  destruct x as [n d]. unfold Qminus, Qplus, Qopp. simpl.
  now rewrite Z.mul_1_r, Z.add_0_r, Pos.mul_1_r.
Qed.

Lemma same_shape_true (a b : ndarray2) :
  shape0 a = shape0 b -> shape1 a = shape1 b -> same_shape a b = true.
Proof.
  intros H0 H1. unfold same_shape. now rewrite H0, H1, !Nat.eqb_refl.
Qed.

Lemma background_level_ok (image : ndarray2) (bkg_weights : option ndarray2) :
  (forall bw, bkg_weights = Some bw ->
     shape0 bw = shape0 image /\ shape1 bw = shape1 image) ->
  exists lvl, background_level image bkg_weights = Ok lvl /\ len lvl = shape1 image /\
    forall j, (j < shape1 image)%nat ->
      item1 lvl j ==
      match bkg_weights with
      | None => 0
      | Some bw => sum_upto (fun p => item image p j * item bw p j) (shape0 image)
      end.
Proof.
  intros Hb. destruct bkg_weights as [bw|]; simpl.
  - destruct (Hb bw eq_refl) as [B0 B1].
    destruct (multiply_same_shape image bw B0 B1) as [c [Ec [S0 [S1 Ic]]]].
    rewrite Ec. simpl bind. eexists. split; [reflexivity|]. simpl.
    split; [exact S1|]. intros j Hj. rewrite S0.
    apply sum_upto_ext. intros p Hp. now rewrite Ic.
  - eexists. split; [reflexivity|]. simpl. split; [reflexivity|].
    intros j Hj. reflexivity.
Qed.

(** The reducer on arguments whose dimensions agree. *)
Lemma extract_ok (image : ndarray2) (wavelengths : WavelengthMap)
    (signal_weights : ndarray2) (bkg_weights : option ndarray2) :
  n_waves wavelengths = shape1 image ->
  shape0 signal_weights = shape0 image -> shape1 signal_weights = shape1 image ->
  (forall bw, bkg_weights = Some bw ->
     shape0 bw = shape0 image /\ shape1 bw = shape1 image) ->
  exists lvl flux corrected,
    extract image wavelengths signal_weights bkg_weights
      = Ok (wavelengths, flux, corrected) /\
    background_level image bkg_weights = Ok lvl /\
    len flux = shape1 image /\
    shape0 corrected = shape0 image /\ shape1 corrected = shape1 image /\
    (forall p j, (p < shape0 image)%nat -> (j < shape1 image)%nat ->
       item corrected p j = item image p j - item1 lvl j) /\
    (forall j, (j < shape1 image)%nat ->
       item1 flux j ==
       sum_upto (fun p => item corrected p j * item signal_weights p j) (shape0 image)).
Proof.
  intros Hw S0 S1 Hb. unfold extract.
  rewrite Hw, Nat.eqb_refl, (same_shape_true _ _ S0 S1).
  assert (Eb : match bkg_weights with
               | Some bw => same_shape bw image
               | None => true
               end = true).
  { destruct bkg_weights as [bw|]; [|reflexivity].
    destruct (Hb bw eq_refl). now apply same_shape_true. }
  rewrite Eb. simpl andb. cbv iota.
  destruct (background_level_ok image bkg_weights Hb) as [lvl [El [Ll _]]].
  rewrite El. simpl bind.
  destruct (subtract_same_shape image (tile lvl (shape0 image)) eq_refl Ll)
    as [corrected [Ec [C0 [C1 Ic]]]].
  rewrite Ec. simpl bind.
  destruct (multiply_same_shape corrected signal_weights) as [w [Ew [W0 [W1 Iw]]]];
    [congruence | congruence |].
  rewrite Ew. simpl bind.
  exists lvl, (sum_axis0 w), corrected. split; [reflexivity|].
  split; [reflexivity|]. simpl. split; [congruence|].
  split; [exact C0|]. split; [exact C1|]. split.
  - intros p j Hp Hj. now rewrite Ic.
  - intros j Hj. rewrite W0, C0. apply sum_upto_ext. intros p Hp.
    rewrite Iw by congruence. reflexivity.
Qed.

(** C1.  On an image, a wavelength map, signal weights and (optional)
    background weights whose dimensions agree the reducer returns; its
    wavelengths are the input map itself, as long as the flux; its flux at
    column [j] is [sum_p corrected[p,j] * signal_weights[p,j]], with no
    conversion factor; and the notebook's PSF-weighted cell, run on the
    reducer's corrected image and PSF weights of the same shape, is that
    weighted sum multiplied afterwards by [1e6 * pixelarea_steradians]. *)
Theorem extract_flux_is_weighted_sum (image : ndarray2) (wavelengths : WavelengthMap)
    (signal_weights : ndarray2) (bkg_weights : option ndarray2)
    (psf_weights : ndarray2) (pixelarea_steradians : Q) :
  n_waves wavelengths = shape1 image ->
  shape0 signal_weights = shape0 image -> shape1 signal_weights = shape1 image ->
  (forall bw, bkg_weights = Some bw ->
     shape0 bw = shape0 image /\ shape1 bw = shape1 image) ->
  shape0 psf_weights = shape0 image -> shape1 psf_weights = shape1 image ->
  exists flux corrected ext1d,
    extract image wavelengths signal_weights bkg_weights
      = Ok (wavelengths, flux, corrected) /\
    len flux = n_waves wavelengths /\
    shape0 corrected = shape0 image /\ shape1 corrected = shape1 image /\
    (forall j, (j < shape1 image)%nat ->
       item1 flux j ==
       sum_upto (fun p => item corrected p j * item signal_weights p j) (shape0 image)) /\
    Notebook.ext1d_psfweight corrected psf_weights pixelarea_steradians = Ok ext1d /\
    len ext1d = n_waves wavelengths /\
    (forall j, (j < shape1 image)%nat ->
       item1 ext1d j ==
       sum_upto (fun p => item corrected p j * item psf_weights p j) (shape0 image)
       * (1000000 * pixelarea_steradians)).
Proof.
  intros Hw S0 S1 Hb P0 P1.
  destruct (extract_ok image wavelengths signal_weights bkg_weights Hw S0 S1 Hb)
    as [lvl [flux [corrected [E [_ [Lf [C0 [C1 [_ If]]]]]]]]].
  destruct (ext1d_psfweight_items corrected psf_weights pixelarea_steradians)
    as [ext1d [Ee [Le Ie]]]; [congruence | congruence |].
  exists flux, corrected, ext1d.
  split; [exact E|]. split; [congruence|]. split; [exact C0|]. split; [exact C1|].
  split; [exact If|]. split; [exact Ee|]. split; [congruence|].
  intros j Hj. rewrite <- C0. apply Ie. congruence.
Qed.

Lemma extract_flux_is_weighted_sum_witness :
  let image := array [[1; 2]; [3; 4]] in
  let wavelengths := waves_of_list [5; 6] in
  let signal_weights := array [[1; 0]; [1 # 2; 1]] in
  let psf_weights := array [[1; 1 # 3]; [1 # 2; 1]] in
  n_waves wavelengths = shape1 image /\
  shape0 signal_weights = shape0 image /\ shape1 signal_weights = shape1 image /\
  (forall bw, @None ndarray2 = Some bw ->
     shape0 bw = shape0 image /\ shape1 bw = shape1 image) /\
  shape0 psf_weights = shape0 image /\ shape1 psf_weights = shape1 image /\
  exists flux corrected ext1d,
    extract image wavelengths signal_weights None = Ok (wavelengths, flux, corrected) /\
    len flux = n_waves wavelengths /\
    shape0 corrected = shape0 image /\ shape1 corrected = shape1 image /\
    (forall j, (j < shape1 image)%nat ->
       item1 flux j ==
       sum_upto (fun p => item corrected p j * item signal_weights p j) (shape0 image)) /\
    Notebook.ext1d_psfweight corrected psf_weights (1 # 4) = Ok ext1d /\
    len ext1d = n_waves wavelengths /\
    (forall j, (j < shape1 image)%nat ->
       item1 ext1d j ==
       sum_upto (fun p => item corrected p j * item psf_weights p j) (shape0 image)
       * (1000000 * (1 # 4))).
Proof.
  intros image wavelengths signal_weights psf_weights.
  assert (Hb : forall bw, @None ndarray2 = Some bw ->
            shape0 bw = shape0 image /\ shape1 bw = shape1 image)
    by (intros bw H; discriminate H).
  split; [reflexivity|]. split; [reflexivity|]. split; [reflexivity|].
  split; [exact Hb|]. split; [reflexivity|]. split; [reflexivity|].
  exact (extract_flux_is_weighted_sum image wavelengths signal_weights None
           psf_weights (1 # 4) eq_refl eq_refl eq_refl Hb eq_refl eq_refl).
Defined.

Example ext1d_psfweight_run :
  match Notebook.ext1d_psfweight (array [[1; 2]; [3; 4]])
          (array [[1; 1 # 3]; [1 # 2; 1]]) (1 # 4) with
  | Ok v => tolist1 v
  | Raise _ => []
  end = [625000; 3500000 # 3].
Proof. vm_compute. reflexivity. Qed.

(** C5.  With [bkg_offset=None] and [bkg_width=None], on an image and a
    wavelength map of the length of its dispersion axis, [extract_1d]
    returns; no background weights are built, the background level is the
    zero vector, and the corrected image has the shape of the image and,
    pixel for pixel, its very values. *)
Theorem extract_1d_without_background (image : ndarray2) (wavelengths : WavelengthMap)
    (center width : Q) (wavescale : option Q) :
  n_waves wavelengths = shape1 image ->
  exists signal_weights lvl flux corrected,
    build_aperture_weights (mkGeometry center width None None)
      (shape0 image, shape1 image) (Some wavelengths) wavescale
      = Ok (signal_weights, None) /\
    background_level image None = Ok lvl /\
    (forall j, item1 lvl j = 0) /\
    extract_1d image wavelengths center width None None wavescale
      = Ok (wavelengths, flux, corrected) /\
    shape0 corrected = shape0 image /\ shape1 corrected = shape1 image /\
    forall p j, (p < shape0 image)%nat -> (j < shape1 image)%nat ->
      item corrected p j = item image p j.
Proof.
  intros Hw. unfold extract_1d, build_aperture_weights.
  rewrite Hw, Nat.eqb_refl. simpl background_requested. cbv iota. simpl bind.
  set (sw := {| shape0 := shape0 image; shape1 := shape1 image;
                item := signal_weight (mkGeometry center width None None)
                          (Some wavelengths) wavescale |}).
  destruct (extract_ok image wavelengths sw None Hw eq_refl eq_refl)
    as [lvl [flux [corrected [E [El [_ [C0 [C1 [Ic _]]]]]]]]].
  { intros bw H. discriminate H. }
  simpl in El. injection El as <-.
  exists sw, (zeros (shape1 image)), flux, corrected.
  split; [reflexivity|]. split; [reflexivity|]. split; [reflexivity|].
  split; [exact E|]. split; [exact C0|]. split; [exact C1|].
  intros p j Hp Hj. rewrite (Ic p j Hp Hj). simpl. apply Qminus_zero.
Qed.

Lemma extract_1d_without_background_witness :
  let image := array [[1; 2]; [3; 4]; [5; 6]] in
  let wavelengths := waves_of_list [5; 6] in
  n_waves wavelengths = shape1 image /\
  exists signal_weights lvl flux corrected,
    build_aperture_weights (mkGeometry 1 2 None None)
      (shape0 image, shape1 image) (Some wavelengths) (Some 10)
      = Ok (signal_weights, None) /\
    background_level image None = Ok lvl /\
    (forall j, item1 lvl j = 0) /\
    extract_1d image wavelengths 1 2 None None (Some 10)
      = Ok (wavelengths, flux, corrected) /\
    shape0 corrected = shape0 image /\ shape1 corrected = shape1 image /\
    forall p j, (p < shape0 image)%nat -> (j < shape1 image)%nat ->
      item corrected p j = item image p j.
Proof.
  intros image wavelengths. split; [reflexivity|].
  apply (extract_1d_without_background image wavelengths 1 2 (Some 10)).
  reflexivity.
Defined.

(** ** The aperture mask builder *)

Lemma pix_S (n : nat) : pix (S n) == pix n + 1.
Proof.
  unfold pix. rewrite Nat2Z.inj_succ, <- Z.add_1_r, inject_Z_plus. reflexivity.
Qed.

Lemma overlap_weight_range (lo hi : Q) (p : nat) :
  0 <= overlap_weight lo hi p <= 1.
Proof. unfold overlap_weight, clip01. minmax. intros. lra. Qed.

Lemma overlap_weight_pos (lo hi : Q) (p : nat) :
  0 < overlap_weight lo hi p <-> meets lo hi p.
Proof. unfold overlap_weight, clip01, meets. minmax. intros. lra. Qed.

(** A pixel wholly inside the aperture weighs 1, one wholly outside 0. *)
Lemma overlap_weight_inside (lo hi : Q) (p : nat) :
  lo <= pix p - (1#2) -> pix p + (1#2) <= hi -> overlap_weight lo hi p == 1.
Proof. unfold overlap_weight, clip01. minmax. intros. lra. Qed.

Lemma overlap_weight_outside (lo hi : Q) (p : nat) :
  pix p + (1#2) <= lo \/ hi <= pix p - (1#2) -> overlap_weight lo hi p == 0.
Proof. unfold overlap_weight, clip01. minmax. intros. lra. Qed.

(** The weights of the first [n] pixels add up to the length of the part of
    the aperture below the upper edge of pixel [n-1]. *)
Lemma overlap_sum_prefix (lo hi : Q) (n : nat) :
  -(1#2) <= lo -> lo <= hi ->
  sum_upto (overlap_weight lo hi) n == Qmax lo (Qmin hi (pix n - (1#2))) - lo.
Proof.
  intros Hlo Hle. induction n as [|n IH].
  - simpl. change (pix 0) with 0. minmax. intros. lra.
  - simpl sum_upto. rewrite IH. unfold overlap_weight, clip01.
    pose proof (pix_S n) as HS. revert HS.
    generalize (pix (S n)) (pix n). intros x1 x0 HS.
    minmax. intros. lra.
Qed.

Lemma overlap_sum_within (lo hi : Q) (n : nat) :
  -(1#2) <= lo -> lo <= hi -> hi <= pix n - (1#2) ->
  sum_upto (overlap_weight lo hi) n == hi - lo.
Proof.
  intros Hlo Hle Hhi. rewrite overlap_sum_prefix by assumption.
  minmax. intros. lra.
Qed.

Lemma sum_upto_nonneg (f : nat -> Q) (n : nat) :
  (forall p, (p < n)%nat -> 0 <= f p) -> 0 <= sum_upto f n.
Proof.
  induction n as [|n IH]; intros H; simpl.
  - apply Qle_refl.
  - assert (0 <= sum_upto f n) by (apply IH; intros; apply H; lia).
    assert (0 <= f n) by (apply H; lia). lra.
Qed.

Lemma sum_upto_pos (f : nat -> Q) (n p : nat) :
  (forall q, (q < n)%nat -> 0 <= f q) -> (p < n)%nat -> 0 < f p -> 0 < sum_upto f n.
Proof.
  induction n as [|n IH]; intros H Hp Hf; [lia|]. simpl.
  assert (0 <= sum_upto f n) by (apply sum_upto_nonneg; intros; apply H; lia).
  assert (0 <= f n) by (apply H; lia).
  destruct (Nat.eq_dec p n) as [-> | Hne]; [lra|].
  assert (0 < sum_upto f n) by (apply IH; [intros; apply H; lia | lia | exact Hf]).
  lra.
Qed.

Lemma sum_upto_zero (f : nat -> Q) (n : nat) :
  (forall p, (p < n)%nat -> f p == 0) -> sum_upto f n == 0.
Proof.
  induction n as [|n IH]; intros H; simpl.
  - reflexivity.
  - rewrite IH by (intros; apply H; lia). rewrite (H n) by lia. reflexivity.
Qed.

Lemma sum_upto_div (f : nat -> Q) (d : Q) (n : nat) :
  sum_upto (fun p => f p / d) n == sum_upto f n / d.
Proof.
  induction n as [|n IH]; simpl.
  - unfold Qdiv. ring.
  - rewrite IH. unfold Qdiv. ring.
Qed.

Lemma band_weight_nonneg (c off bw : Q) (p : nat) : 0 <= band_weight c off bw p.
Proof.
  unfold band_weight.
  pose proof (overlap_weight_range (c - off - bw) (c - off) p).
  pose proof (overlap_weight_range (c + off) (c + off + bw) p). lra.
Qed.

Lemma band_weight_pos (c off bw : Q) (p : nat) :
  0 < band_weight c off bw p <-> background_pixel c off bw p.
Proof.
  unfold band_weight, background_pixel.
  rewrite <- !overlap_weight_pos.
  pose proof (overlap_weight_range (c - off - bw) (c - off) p).
  pose proof (overlap_weight_range (c + off) (c + off + bw) p).
  split; [|intros [|]; lra].
  intros H1.
  destruct (Qlt_le_dec 0 (overlap_weight (c - off - bw) (c - off) p)); [now left|].
  right. lra.
Qed.

Lemma build_aperture_weights_ok (g : ApertureGeometry) (n_spatial n_dispersion : nat)
    (wavelengths : option WavelengthMap) (wavescale : option Q) :
  (forall waves, wavelengths = Some waves -> n_waves waves = n_dispersion) ->
  exists sw bkg,
    build_aperture_weights g (n_spatial, n_dispersion) wavelengths wavescale
      = Ok (sw, bkg) /\
    shape0 sw = n_spatial /\ shape1 sw = n_dispersion /\
    item sw = signal_weight g wavelengths wavescale /\
    match background_requested g with
    | None => bkg = None
    | Some (off, bw) =>
        exists b, bkg = Some b /\ shape0 b = n_spatial /\ shape1 b = n_dispersion /\
          item b = fun p _ => background_weight (center g) off bw n_spatial p
    end.
Proof.
  intros Hfit. unfold build_aperture_weights.
  assert (E : match wavelengths with
              | Some waves => (n_waves waves =? n_dispersion)%nat
              | None => true
              end = true).
  { destruct wavelengths as [waves|]; [|reflexivity].
    rewrite (Hfit waves eq_refl). apply Nat.eqb_refl. }
  rewrite E. eexists. eexists. split; [reflexivity|]. simpl.
  repeat split.
  destruct (background_requested g) as [[off bw]|]; [|reflexivity].
  eexists. split; [reflexivity|]. simpl. repeat split.
Qed.

(** C3, as amended.  In a column [j] with finite half-width [h >= 0] (as
    [width > 0] gives without scaling) whose aperture
    [[center - h, center + h]] lies within the extent
    [[-0.5, n_spatial - 0.5]] of the image's pixels, every signal weight is
    the overlap of the pixel's unit interval with the aperture clipped to
    [[0,1]], and the weights of the column add up to the effective width
    of the column, [min(2h, n_spatial)]; that is [min(width, n_spatial)]
    when no wavelength scaling is requested. *)
Theorem signal_weights_column_sum (g : ApertureGeometry) (n_spatial n_dispersion : nat)
    (wavelengths : option WavelengthMap) (wavescale : option Q) (j : nat) (h : Q) :
  (forall waves, wavelengths = Some waves -> n_waves waves = n_dispersion) ->
  (j < n_dispersion)%nat ->
  half_width g wavelengths wavescale j = Some h -> 0 <= h ->
  -(1#2) <= center g - h -> center g + h <= pix n_spatial - (1#2) ->
  exists sw bkg,
    build_aperture_weights g (n_spatial, n_dispersion) wavelengths wavescale
      = Ok (sw, bkg) /\
    shape0 sw = n_spatial /\ shape1 sw = n_dispersion /\
    (forall p, (p < n_spatial)%nat ->
       item sw p j = overlap_weight (center g - h) (center g + h) p /\
       0 <= item sw p j <= 1) /\
    sum_upto (fun p => item sw p j) n_spatial == Qmin (2 * h) (pix n_spatial) /\
    (wavescale = None ->
     sum_upto (fun p => item sw p j) n_spatial == Qmin (width g) (pix n_spatial)).
Proof.
  intros Hfit Hj Hh Hpos Hlo Hhi.
  destruct (build_aperture_weights_ok g n_spatial n_dispersion wavelengths wavescale Hfit)
    as [sw [bkg [E [S0 [S1 [Is _]]]]]].
  exists sw, bkg. split; [exact E|]. split; [exact S0|]. split; [exact S1|].
  assert (It : forall p, item sw p j = overlap_weight (center g - h) (center g + h) p).
  { intros p. rewrite Is. unfold signal_weight. now rewrite Hh. }
  assert (Sum : sum_upto (fun p => item sw p j) n_spatial == 2 * h).
  { rewrite (sum_upto_ext _ (overlap_weight (center g - h) (center g + h))).
    - rewrite overlap_sum_within by lra. ring.
    - intros p _. now rewrite It. }
  split; [|split].
  - intros p _. rewrite It. split; [reflexivity | apply overlap_weight_range].
  - rewrite Sum. minmax. intros. lra.
  - intros ->. simpl in Hh. injection Hh as <-. rewrite Sum.
    assert (W : 2 * (width g / 2) == width g) by field.
    rewrite W in *. minmax. intros.
    assert (W2 : width g / 2 == (1#2) * width g) by field.
    rewrite W2 in *. lra.
Qed.

Lemma signal_weights_column_sum_witness :
  let g := mkGeometry 5 4 None None in
  (forall waves, @None WavelengthMap = Some waves -> n_waves waves = 5%nat) /\
  (0 < 5)%nat /\
  half_width g None None 0 = Some (4 / 2) /\ 0 <= 4 / 2 /\
  -(1#2) <= center g - 4 / 2 /\ center g + 4 / 2 <= pix 10 - (1#2) /\
  exists sw bkg,
    build_aperture_weights g (10%nat, 5%nat) None None = Ok (sw, bkg) /\
    shape0 sw = 10%nat /\ shape1 sw = 5%nat /\
    (forall p, (p < 10)%nat ->
       item sw p 0 = overlap_weight (center g - 4 / 2) (center g + 4 / 2) p /\
       0 <= item sw p 0 <= 1) /\
    sum_upto (fun p => item sw p 0%nat) 10 == Qmin (2 * (4 / 2)) (pix 10) /\
    (@None Q = None ->
     sum_upto (fun p => item sw p 0%nat) 10 == Qmin (width g) (pix 10)).
Proof.
  intros g.
  assert (H1 : forall waves, @None WavelengthMap = Some waves -> n_waves waves = 5%nat)
    by (intros waves H; discriminate H).
  assert (H2 : (0 < 5)%nat) by lia.
  assert (H3 : half_width g None None 0 = Some (4 / 2)) by reflexivity.
  assert (H4 : 0 <= 4 / 2) by (vm_compute; discriminate).
  assert (H5 : -(1#2) <= center g - 4 / 2) by (vm_compute; discriminate).
  assert (H6 : center g + 4 / 2 <= pix 10 - (1#2)) by (vm_compute; discriminate).
  repeat (split; [assumption|]).
  exact (signal_weights_column_sum g 10 5 None None 0 (4 / 2) H1 H2 H3 H4 H5 H6).
Defined.

(** C3, as stated, fails in a scaled column: width 8, centre 30, 60 rows,
    [wavescale] 10 and wavelength 5 give the half-width 2 and the aperture
    [[28, 32]], well within the image; the weights add up to 4, the
    effective width, not to [min(8, 60) = 8]. *)
Lemma column_sum_is_min_width_fails :
  ~ column_sum_is_min_width (1 # 1000000) (mkGeometry 30 8 None None) 60 1
      (Some (waves_of_list [5])) (Some 10) 0.
Proof.
  intros H.
  destruct (H eq_refl (8 / 2 * (5 / 10)) eq_refl) as [sw [bkg [E [L _]]]];
    [vm_compute; discriminate | vm_compute; discriminate |].
  unfold build_aperture_weights in E. simpl in E. injection E as <- _.
  simpl item in L.
  rewrite (sum_upto_ext _ (overlap_weight (30 - 8 / 2 * (5 / 10))
                                          (30 + 8 / 2 * (5 / 10)))) in L
    by (intros p _; reflexivity).
  rewrite overlap_sum_within in L by (vm_compute; discriminate).
  vm_compute in L. now apply L.
Qed.

Example scaled_column_run :
  match build_aperture_weights (mkGeometry 30 8 None None) (60%nat, 1%nat)
          (Some (waves_of_list [5])) (Some 10) with
  | Ok (sw, _) => tolist1 (sum_axis0 sw)
  | Raise _ => []
  end = [4].
Proof. vm_compute. reflexivity. Qed.

(** C4.  When the background is requested (offset and width given, width
    positive) the builder returns background weights, and in every column
    they add up to 1 over the spatial axis if some pixel of the image is a
    background pixel, and are all 0, adding up to 0, if none is. *)
Theorem background_weights_column_sum (g : ApertureGeometry) (n_spatial n_dispersion : nat)
    (wavelengths : option WavelengthMap) (wavescale : option Q) (off bw : Q) (j : nat) :
  (forall waves, wavelengths = Some waves -> n_waves waves = n_dispersion) ->
  bkg_offset g = Some off -> bkg_width g = Some bw -> 0 < bw ->
  (j < n_dispersion)%nat ->
  exists sw bkg,
    build_aperture_weights g (n_spatial, n_dispersion) wavelengths wavescale
      = Ok (sw, Some bkg) /\
    shape0 bkg = n_spatial /\ shape1 bkg = n_dispersion /\
    ((exists p, (p < n_spatial)%nat /\ background_pixel (center g) off bw p) ->
     sum_upto (fun p => item bkg p j) n_spatial == 1) /\
    ((forall p, (p < n_spatial)%nat -> ~ background_pixel (center g) off bw p) ->
     sum_upto (fun p => item bkg p j) n_spatial == 0 /\
     forall p, (p < n_spatial)%nat -> item bkg p j == 0).
Proof.
  intros Hfit Hoff Hbw Hpos Hj.
  destruct (build_aperture_weights_ok g n_spatial n_dispersion wavelengths wavescale Hfit)
    as [sw [bkg [E [_ [_ [_ Hb]]]]]].
  assert (R : background_requested g = Some (off, bw)).
  { unfold background_requested. rewrite Hoff, Hbw.
    destruct (Qle_bool bw 0) eqn:B; [|reflexivity].
    apply Qle_bool_iff in B. lra. }
  rewrite R in Hb. destruct Hb as [b [-> [B0 [B1 Ib]]]].
  exists sw, b. split; [exact E|]. split; [exact B0|]. split; [exact B1|].
  set (S := sum_upto (band_weight (center g) off bw) n_spatial).
  split.
  - intros [p [Hp Hbg]]. apply band_weight_pos in Hbg.
    assert (Spos : 0 < S).
    { apply (sum_upto_pos _ _ p); [intros; apply band_weight_nonneg | exact Hp | exact Hbg]. }
    rewrite (sum_upto_ext _ (fun q => band_weight (center g) off bw q / S)).
    + rewrite sum_upto_div. fold S. apply div_self. lra.
    + intros q _. rewrite Ib. unfold background_weight. fold S.
      destruct (Qeq_bool S 0) eqn:Z; [|reflexivity].
      apply Qeq_bool_iff in Z. lra.
  - intros Hnone.
    assert (Zero : forall p, (p < n_spatial)%nat -> band_weight (center g) off bw p == 0).
    { intros p Hp. pose proof (band_weight_nonneg (center g) off bw p) as Hge.
      destruct (Qlt_le_dec 0 (band_weight (center g) off bw p)) as [Hgt | Hle].
      - apply band_weight_pos in Hgt. now destruct (Hnone p Hp).
      - lra. }
    assert (SZ : S == 0) by (apply sum_upto_zero; exact Zero).
    assert (Items : forall p, (p < n_spatial)%nat -> item b p j == 0).
    { intros p Hp. rewrite Ib. unfold background_weight. fold S.
      apply Qeq_bool_iff in SZ. rewrite SZ. now apply Zero. }
    split; [now apply sum_upto_zero | exact Items].
Qed.

Lemma background_weights_column_sum_witness :
  let g := mkGeometry 5 4 (Some 3) (Some 2) in
  (forall waves, @None WavelengthMap = Some waves -> n_waves waves = 3%nat) /\
  bkg_offset g = Some 3 /\ bkg_width g = Some 2 /\ 0 < 2 /\ (0 < 3)%nat /\
  exists sw bkg,
    build_aperture_weights g (12%nat, 3%nat) None None = Ok (sw, Some bkg) /\
    shape0 bkg = 12%nat /\ shape1 bkg = 3%nat /\
    ((exists p, (p < 12)%nat /\ background_pixel (center g) 3 2 p) ->
     sum_upto (fun p => item bkg p 0%nat) 12 == 1) /\
    ((forall p, (p < 12)%nat -> ~ background_pixel (center g) 3 2 p) ->
     sum_upto (fun p => item bkg p 0%nat) 12 == 0 /\
     forall p, (p < 12)%nat -> item bkg p 0%nat == 0).
Proof.
  intros g.
  assert (H1 : forall waves, @None WavelengthMap = Some waves -> n_waves waves = 3%nat)
    by (intros waves H; discriminate H).
  assert (H2 : bkg_offset g = Some 3) by reflexivity.
  assert (H3 : bkg_width g = Some 2) by reflexivity.
  assert (H4 : 0 < 2) by reflexivity.
  assert (H5 : (0 < 3)%nat) by lia.
  repeat (split; [assumption|]).
  exact (background_weights_column_sum g 12 3 None None 3 2 0 H1 H2 H3 H4 H5).
Defined.

Lemma scaled_half_width (g : ApertureGeometry) (waves : WavelengthMap)
    (reference_wavelength : Q) (j : nat) :
  ~ reference_wavelength == 0 ->
  half_width g (Some waves) (Some reference_wavelength) j =
  match wavelength waves j with
  | Some w => Some ((width g / 2) * (w / reference_wavelength))
  | None => None
  end.
Proof.
  intros Hnz. unfold half_width. destruct (wavelength waves j) as [w|]; [|reflexivity].
  destruct (Qeq_bool reference_wavelength 0) eqn:E; [|reflexivity].
  apply Qeq_bool_iff in E. contradiction.
Qed.

Lemma scale_le (a r x y : Q) : 0 < a -> 0 < r -> x <= y -> a * (x / r) <= a * (y / r).
Proof.
  intros Ha Hr Hxy. rewrite !(Qmult_comm a).
  apply Qmult_le_compat_r; [now apply div_le_pos | lra].
Qed.

(** C8.  With the scaling set, a positive width and a positive reference
    wavelength [wavescale], the half-width of column [j] is
    [(width/2) * (wavelength[j] / wavescale)], and the half-widths (so the
    widths, their doubles) are monotonic in the direction of the wavelength
    map: nondecreasing where it is, nonincreasing where it is. *)
Theorem scaled_half_width_monotonic (g : ApertureGeometry) (waves : WavelengthMap)
    (wavescale : Q) :
  0 < width g -> 0 < wavescale ->
  (forall j w, wavelength waves j = Some w ->
     half_width g (Some waves) (Some wavescale) j
       = Some ((width g / 2) * (w / wavescale))) /\
  (nondecreasing (n_waves waves) (wavelength waves) ->
   nondecreasing (n_waves waves) (half_width g (Some waves) (Some wavescale))) /\
  (nonincreasing (n_waves waves) (wavelength waves) ->
   nonincreasing (n_waves waves) (half_width g (Some waves) (Some wavescale))).
Proof.
  intros Hw Hr.
  assert (Hnz : ~ wavescale == 0) by lra.
  assert (Hh : 0 < width g / 2).
  { assert (E : width g / 2 == (1#2) * width g) by field. rewrite E. lra. }
  split; [|split].
  - intros j w Ej. now rewrite scaled_half_width, Ej.
  - intros Mono i j x y Hij Ei Ej.
    rewrite scaled_half_width in Ei, Ej by exact Hnz.
    destruct (wavelength waves i) as [wi|] eqn:Wi; [|discriminate Ei].
    destruct (wavelength waves j) as [wj|] eqn:Wj; [|discriminate Ej].
    injection Ei as <-. injection Ej as <-.
    apply scale_le; [exact Hh | exact Hr | exact (Mono i j wi wj Hij Wi Wj)].
  - intros Mono i j x y Hij Ei Ej.
    rewrite scaled_half_width in Ei, Ej by exact Hnz.
    destruct (wavelength waves i) as [wi|] eqn:Wi; [|discriminate Ei].
    destruct (wavelength waves j) as [wj|] eqn:Wj; [|discriminate Ej].
    injection Ei as <-. injection Ej as <-.
    apply scale_le; [exact Hh | exact Hr | exact (Mono i j wi wj Hij Wi Wj)].
Qed.

Lemma scaled_half_width_monotonic_witness :
  let g := mkGeometry 30 8 None None in
  let waves := waves_of_list [5; 7; 10; 12] in
  0 < width g /\ 0 < 10 /\
  (forall j w, wavelength waves j = Some w ->
     half_width g (Some waves) (Some 10) j = Some ((width g / 2) * (w / 10))) /\
  (nondecreasing (n_waves waves) (wavelength waves) ->
   nondecreasing (n_waves waves) (half_width g (Some waves) (Some 10))) /\
  (nonincreasing (n_waves waves) (wavelength waves) ->
   nonincreasing (n_waves waves) (half_width g (Some waves) (Some 10))).
Proof.
  intros g waves.
  assert (H1 : 0 < width g) by reflexivity.
  assert (H2 : 0 < 10) by reflexivity.
  repeat (split; [assumption|]).
  exact (scaled_half_width_monotonic g waves 10 H1 H2).
Defined.

(** With a negative reference wavelength the direction is reversed. *)
Lemma scaled_half_width_negative_reference (g : ApertureGeometry) (waves : WavelengthMap)
    (wavescale : Q) :
  0 < width g -> wavescale < 0 ->
  nondecreasing (n_waves waves) (wavelength waves) ->
  nonincreasing (n_waves waves) (half_width g (Some waves) (Some wavescale)).
Proof.
  intros Hw Hr Mono i j x y Hij Ei Ej.
  assert (Hnz : ~ wavescale == 0) by lra.
  rewrite scaled_half_width in Ei, Ej by exact Hnz.
  destruct (wavelength waves i) as [wi|] eqn:Wi; [|discriminate Ei].
  destruct (wavelength waves j) as [wj|] eqn:Wj; [|discriminate Ej].
  injection Ei as <-. injection Ej as <-.
  pose proof (Mono i j wi wj Hij Wi Wj) as Hle.
  assert (E : forall w, width g / 2 * (w / wavescale)
                        == - ((width g / 2) * (w / - wavescale))) by (intros; now field).
  rewrite !E.
  assert (Hh : 0 < width g / 2).
  { assert (E2 : width g / 2 == (1#2) * width g) by field. rewrite E2. lra. }
  assert (L := scale_le (width g / 2) (- wavescale) wi wj Hh ltac:(lra) Hle).
  lra.
Qed.

(** ** The scenarios of the specification *)

(** A 10 by 5 image of constant value 100, centre 5, width 4, no
    background: flux 400 in every column. *)
Example scenario_full_pixels :
  match extract_1d (full 10 5 100) (waves_of_list [5; 6; 7; 8; 9]) 5 4 None None None with
  | Ok (_, flux, _) => tolist1 flux
  | Raise _ => []
  end = [400; 400; 400; 400; 400].
Proof. vm_compute. reflexivity. Qed.

(** Width 3 centred at 5.5: the edge pixels weigh 0.5, the weights add up
    to 3 and the flux is 300. *)
Example scenario_edge_pixels :
  match build_aperture_weights (mkGeometry (11 # 2) 3 None None) (10%nat, 1%nat) None None with
  | Ok (sw, _) => tolist sw
  | Raise _ => []
  end = [[0]; [0]; [0]; [0]; [1 # 2]; [1]; [1]; [1 # 2]; [0]; [0]]
  /\
  match extract_1d (full 10 5 100) (waves_of_list [5; 6; 7; 8; 9])
          (11 # 2) 3 None None None with
  | Ok (_, flux, _) => tolist1 flux
  | Raise _ => []
  end = [300; 300; 300; 300; 300].
Proof. split; vm_compute; reflexivity. Qed.

(** Background bands wholly outside the image: the background weights are
    the zero matrix and the background level is 0. *)
Example scenario_bands_out_of_bounds :
  match build_aperture_weights (mkGeometry 5 4 (Some 20) (Some 2)) (10%nat, 2%nat) None None with
  | Ok (_, Some bkg) =>
      match background_level (full 10 2 100) (Some bkg) with
      | Ok lvl => (tolist bkg, tolist1 lvl)
      | Raise _ => ([], [])
      end
  | _ => ([], [])
  end = (repeat [0; 0] 10, [0; 0]).
Proof. vm_compute. reflexivity. Qed.

(** Background bands inside the image: a weighted mean per column. *)
Example scenario_background_mean :
  match build_aperture_weights (mkGeometry 5 4 (Some 3) (Some 2)) (12%nat, 1%nat) None None with
  | Ok (_, Some bkg) => tolist bkg
  | _ => []
  end = [[1 # 8]; [1 # 4]; [1 # 8]; [0]; [0]; [0]; [0]; [0]; [1 # 8]; [1 # 4]; [1 # 8]; [0]].
Proof. vm_compute. reflexivity. Qed.

(** The scaled aperture: at the reference wavelength the width is the
    nominal one, at half of it half as wide. *)
Example scenario_scaled_width :
  map (half_width (mkGeometry 30 8 None None) (Some (waves_of_list [5; 10; 20])) (Some 10))
      [0; 1; 2; 3]%nat
  = [Some (8 / 2 * (5 / 10)); Some (8 / 2 * (10 / 10)); Some (8 / 2 * (20 / 10)); None].
Proof. reflexivity. Qed.

(** ** Further properties of the notebook's cells *)

Lemma is_col_peak_scale (a b : nat -> nat -> Q) (m j : nat) (M c : Q) :
  0 < c -> (forall p, (p < m)%nat -> b p j == c * a p j) ->
  is_col_peak a m j M -> is_col_peak b m j (c * M).
Proof.
  intros Hc E [U [p [Hp Ep]]]. split.
  - intros q Hq. rewrite (E q Hq). specialize (U q Hq).
    rewrite !(Qmult_comm c). apply Qmult_le_compat_r; lra.
  - exists p. split; [exact Hp|]. rewrite (E p Hp). now rewrite Ep.
Qed.

Lemma sum_upto_le (f g : nat -> Q) (n : nat) :
  (forall p, (p < n)%nat -> f p <= g p) -> sum_upto f n <= sum_upto g n.
Proof.
  induction n as [|n IH]; intros H; simpl.
  - apply Qle_refl.
  - assert (sum_upto f n <= sum_upto g n) by (apply IH; intros; apply H; lia).
    assert (f n <= g n) by (apply H; lia). lra.
Qed.

Lemma sum_upto_ge_term (f : nat -> Q) (n p : nat) :
  (forall q, (q < n)%nat -> 0 <= f q) -> (p < n)%nat -> f p <= sum_upto f n.
Proof.
  induction n as [|n IH]; intros H Hp; [lia|]. simpl.
  assert (0 <= sum_upto f n) by (apply sum_upto_nonneg; intros; apply H; lia).
  assert (0 <= f n) by (apply H; lia).
  destruct (Nat.eq_dec p n) as [-> | Hne]; [lra|].
  assert (f p <= sum_upto f n) by (apply IH; [intros; apply H; lia | lia]).
  lra.
Qed.

Lemma sum_upto_linear (f g w : nat -> Q) (x y : Q) (n : nat) :
  sum_upto (fun p => (x * f p + y * g p) * w p) n
  == x * sum_upto (fun p => f p * w p) n + y * sum_upto (fun p => g p * w p) n.
Proof.
  induction n as [|n IH]; simpl.
  - ring.
  - rewrite IH. ring.
Qed.

Lemma sum_upto_scale (f : nat -> Q) (c : Q) (n : nat) :
  sum_upto (fun p => f p * c) n == sum_upto f n * c.
Proof.
  induction n as [|n IH]; simpl.
  - ring.
  - rewrite IH. ring.
Qed.

Lemma masked_nonneg (psf mask : ndarray2) (p j : nat) :
  0 <= item psf p j -> 0 <= item mask p j -> 0 <= masked psf mask p j.
Proof. intros. unfold masked. now apply Qmult_le_0_compat. Qed.

(** The weights of a column without negative values lie between 0 and 1. *)
Lemma weight_in_unit_interval (a : nat -> nat -> Q) (m j p : nat) (M : Q) :
  is_col_peak a m j M -> (p < m)%nat -> 0 <= a p j ->
  0 <= a p j / guard M <= 1.
Proof.
  intros [U _] Hp Hge. specialize (U p Hp).
  assert (HM : 0 <= M) by lra.
  pose proof (guard_pos M HM) as Hg.
  split.
  - apply Qle_shift_div_l; [exact Hg | lra].
  - apply Qle_shift_div_r; [exact Hg|].
    destruct (Qeq_dec M 0) as [Z | NZ].
    + rewrite (guard_zero M Z). lra.
    + rewrite (guard_other M NZ). lra.
Qed.

Lemma psf_weightimage_range (psf mask : ndarray2) :
  shape0 mask = shape0 psf -> shape1 mask = shape1 psf -> (0 < shape0 psf)%nat ->
  (forall p j, (p < shape0 psf)%nat -> (j < shape1 psf)%nat ->
     0 <= item psf p j /\ 0 <= item mask p j) ->
  exists out, Notebook.psf_weightimage psf mask = Ok out /\
    shape0 out = shape0 psf /\ shape1 out = shape1 psf /\
    forall p j, (p < shape0 psf)%nat -> (j < shape1 psf)%nat ->
      0 <= item out p j <= 1.
Proof.
  intros H0 H1 Hm Hnn.
  destruct (psf_weightimage_items psf mask H0 H1 Hm) as [out [peak [E [S0 [S1 [Pk It]]]]]].
  exists out. split; [exact E|]. split; [exact S0|]. split; [exact S1|].
  intros p j Hp Hj. rewrite (It p j Hp Hj).
  apply (weight_in_unit_interval (masked psf mask) (shape0 psf)); [now apply Pk | exact Hp |].
  destruct (Hnn p j Hp Hj). now apply masked_nonneg.
Qed.

(** X1.  When neither the raw PSF image nor the mask has a negative pixel,
    every normalised weight lies in [[0, 1]] (the cell raises only on images
    without rows). *)
Theorem psf_weights_in_unit_interval (psf mask : ndarray2) :
  shape0 mask = shape0 psf -> shape1 mask = shape1 psf ->
  (forall p j, (p < shape0 psf)%nat -> (j < shape1 psf)%nat ->
     0 <= item psf p j /\ 0 <= item mask p j) ->
  match Notebook.psf_weightimage psf mask with
  | Ok out =>
      (0 < shape0 psf)%nat /\
      forall p j, (p < shape0 psf)%nat -> (j < shape1 psf)%nat ->
        0 <= item out p j <= 1
  | Raise e => shape0 psf = 0%nat /\ e = ValueError
  end.
Proof.
  intros H0 H1 Hnn. destruct (Nat.eq_dec (shape0 psf) 0) as [Hz | Hnz].
  - rewrite (psf_weightimage_empty psf mask H0 H1 Hz). now split.
  - destruct (psf_weightimage_range psf mask H0 H1 ltac:(lia) Hnn) as [out [E [_ [_ R]]]].
    rewrite E. split; [lia | exact R].
Qed.

Lemma psf_weights_in_unit_interval_witness :
  let psf := array [[1; 2]; [3; 0]] in
  let mask := array [[1; 0]; [1 # 2; 1]] in
  shape0 mask = shape0 psf /\ shape1 mask = shape1 psf /\
  (forall p j, (p < shape0 psf)%nat -> (j < shape1 psf)%nat ->
     0 <= item psf p j /\ 0 <= item mask p j) /\
  match Notebook.psf_weightimage psf mask with
  | Ok out =>
      (0 < shape0 psf)%nat /\
      forall p j, (p < shape0 psf)%nat -> (j < shape1 psf)%nat ->
        0 <= item out p j <= 1
  | Raise e => shape0 psf = 0%nat /\ e = ValueError
  end.
Proof.
  intros psf mask.
  assert (Hnn : forall p j, (p < shape0 psf)%nat -> (j < shape1 psf)%nat ->
            0 <= item psf p j /\ 0 <= item mask p j).
  { intros [|[|p]] [|[|j]] Hp Hj; simpl in Hp, Hj; try lia;
      split; vm_compute; discriminate. }
  split; [reflexivity|]. split; [reflexivity|]. split; [exact Hnn|].
  exact (psf_weights_in_unit_interval psf mask eq_refl eq_refl Hnn).
Defined.

(** X2.  The normalised profile does not depend on the brightness of the
    calibration source: multiplying the raw PSF image by a factor [c > 0]
    leaves the weights of every column with a nonzero peak unchanged; in a
    column whose peak is 0 the result is not normalised and is multiplied
    by [c] as well. *)
Theorem psf_weights_scale_invariant (psf psf' mask : ndarray2) (c : Q) :
  shape0 mask = shape0 psf -> shape1 mask = shape1 psf ->
  shape0 psf' = shape0 psf -> shape1 psf' = shape1 psf ->
  (0 < shape0 psf)%nat -> 0 < c ->
  (forall p j, (p < shape0 psf)%nat -> (j < shape1 psf)%nat ->
     item psf' p j == c * item psf p j) ->
  exists out out',
    Notebook.psf_weightimage psf mask = Ok out /\
    Notebook.psf_weightimage psf' mask = Ok out' /\
    forall j M, (j < shape1 psf)%nat ->
      is_col_peak (masked psf mask) (shape0 psf) j M ->
      forall p, (p < shape0 psf)%nat ->
        (~ M == 0 -> item out' p j == item out p j) /\
        (M == 0 -> item out' p j == c * item out p j).
Proof.
  intros H0 H1 G0 G1 Hm Hc Hs.
  destruct (psf_weightimage_items psf mask H0 H1 Hm) as [out [peak [E [_ [_ [Pk It]]]]]].
  destruct (psf_weightimage_items psf' mask) as [out' [peak' [E' [_ [_ [Pk' It']]]]]];
    [congruence | congruence | lia |].
  exists out, out'. split; [exact E|]. split; [exact E'|].
  intros j M Hj HM p Hp.
  assert (Ms : forall q, (q < shape0 psf)%nat ->
            masked psf' mask q j == c * masked psf mask q j).
  { intros q Hq. unfold masked. rewrite (Hs q j Hq Hj). ring. }
  assert (EM : peak j == M) by (eapply is_col_peak_unique; [now apply Pk | exact HM]).
  assert (EM' : peak' j == c * M).
  { assert (P' : is_col_peak (masked psf' mask) (shape0 psf) j (peak' j))
      by (rewrite <- G0; apply Pk'; congruence).
    eapply is_col_peak_unique; [exact P'|].
    apply (is_col_peak_scale (masked psf mask)); assumption. }
  rewrite (It p j Hp Hj), (It' p j) by congruence.
  rewrite (Ms p Hp). split; intros HM0.
  - assert (NZ' : ~ peak' j == 0).
    { rewrite EM'. intros C. apply HM0.
      apply Qmult_integral in C. destruct C; [lra | assumption]. }
    rewrite !div_guard_other by (assumption || (rewrite EM; exact HM0)).
    rewrite EM', EM. field. split; [exact HM0 | lra].
  - rewrite !div_guard_zero; [reflexivity | now rewrite EM | rewrite EM', HM0; ring].
Qed.

Lemma psf_weights_scale_invariant_witness :
  let psf := array [[1; 2]; [3; 0]] in
  let psf' := array [[5; 10]; [15; 0]] in
  let mask := array [[1; 0]; [1 # 2; 1]] in
  shape0 mask = shape0 psf /\ shape1 mask = shape1 psf /\
  shape0 psf' = shape0 psf /\ shape1 psf' = shape1 psf /\
  (0 < shape0 psf)%nat /\ 0 < 5 /\
  (forall p j, (p < shape0 psf)%nat -> (j < shape1 psf)%nat ->
     item psf' p j == 5 * item psf p j) /\
  exists out out',
    Notebook.psf_weightimage psf mask = Ok out /\
    Notebook.psf_weightimage psf' mask = Ok out' /\
    forall j M, (j < shape1 psf)%nat ->
      is_col_peak (masked psf mask) (shape0 psf) j M ->
      forall p, (p < shape0 psf)%nat ->
        (~ M == 0 -> item out' p j == item out p j) /\
        (M == 0 -> item out' p j == 5 * item out p j).
Proof.
  intros psf psf' mask.
  assert (Hm : (0 < shape0 psf)%nat) by (simpl; lia).
  assert (Hc : 0 < 5) by reflexivity.
  assert (Hs : forall p j, (p < shape0 psf)%nat -> (j < shape1 psf)%nat ->
            item psf' p j == 5 * item psf p j).
  { intros [|[|p]] [|[|j]] Hp Hj; simpl in Hp, Hj; try lia; reflexivity. }
  split; [reflexivity|]. split; [reflexivity|]. split; [reflexivity|].
  split; [reflexivity|]. split; [exact Hm|]. split; [exact Hc|]. split; [exact Hs|].
  exact (psf_weights_scale_invariant psf psf' mask 5
           eq_refl eq_refl eq_refl eq_refl Hm Hc Hs).
Defined.

(** X3.  In a column whose peak is negative the division turns the order
    round: every weight is at least 1, the peak pixel has weight exactly 1,
    and a pixel with a smaller (more negative) masked value gets the larger
    weight. *)
Theorem negative_peak_column_flipped (psf mask : ndarray2) (j : nat) (M : Q) :
  shape0 mask = shape0 psf -> shape1 mask = shape1 psf ->
  (j < shape1 psf)%nat ->
  is_col_peak (masked psf mask) (shape0 psf) j M -> M < 0 ->
  exists out, Notebook.psf_weightimage psf mask = Ok out /\
    (forall p, (p < shape0 psf)%nat -> 1 <= item out p j) /\
    (exists p, (p < shape0 psf)%nat /\ item out p j == 1) /\
    forall p q, (p < shape0 psf)%nat -> (q < shape0 psf)%nat ->
      masked psf mask p j <= masked psf mask q j -> item out q j <= item out p j.
Proof.
  intros H0 H1 Hj HM Mneg.
  assert (Hm : (0 < shape0 psf)%nat).
  { destruct HM as [_ [p [Hp _]]]. lia. }
  destruct (psf_weightimage_items psf mask H0 H1 Hm) as [out [peak [E [_ [_ [Pk It]]]]]].
  exists out. split; [exact E|].
  assert (EM : peak j == M) by (eapply is_col_peak_unique; [now apply Pk | exact HM]).
  assert (NZ : ~ peak j == 0) by lra.
  assert (Io : forall p, (p < shape0 psf)%nat ->
            item out p j == (- masked psf mask p j) / (- M)).
  { intros p Hp. rewrite (It p j Hp Hj), (div_guard_other _ _ NZ), EM. field. lra. }
  assert (One : (- M) / (- M) == 1) by (apply div_self; lra).
  destruct HM as [U [p0 [Hp0 E0]]].
  split; [|split].
  - intros p Hp. rewrite (Io p Hp), <- One.
    apply div_le_pos; [lra|]. specialize (U p Hp). lra.
  - exists p0. split; [exact Hp0|]. rewrite (Io p0 Hp0), E0. exact One.
  - intros p q Hp Hq Hle. rewrite (Io p Hp), (Io q Hq).
    apply div_le_pos; lra.
Qed.

Lemma negative_peak_column_flipped_witness :
  let psf := array [[-2; 1]; [-4; 1]] in
  let mask := array [[1; 1]; [1; 1]] in
  shape0 mask = shape0 psf /\ shape1 mask = shape1 psf /\
  (0 < shape1 psf)%nat /\
  is_col_peak (masked psf mask) (shape0 psf) 0 (-2) /\ -2 < 0 /\
  exists out, Notebook.psf_weightimage psf mask = Ok out /\
    (forall p, (p < shape0 psf)%nat -> 1 <= item out p 0) /\
    (exists p, (p < shape0 psf)%nat /\ item out p 0%nat == 1) /\
    forall p q, (p < shape0 psf)%nat -> (q < shape0 psf)%nat ->
      masked psf mask p 0 <= masked psf mask q 0 -> item out q 0 <= item out p 0.
Proof.
  intros psf mask.
  assert (Hj : (0 < shape1 psf)%nat) by (simpl; lia).
  assert (HM : is_col_peak (masked psf mask) (shape0 psf) 0 (-2)).
  { split.
    - intros [|[|p]] Hp; simpl in Hp; try lia; vm_compute; discriminate.
    - exists 0%nat. split; [simpl; lia | reflexivity]. }
  assert (Hneg : -2 < 0) by reflexivity.
  split; [reflexivity|]. split; [reflexivity|]. split; [exact Hj|].
  split; [exact HM|]. split; [exact Hneg|].
  exact (negative_peak_column_flipped psf mask 0 (-2) eq_refl eq_refl Hj HM Hneg).
Defined.

(** X4.  The cell normalises the peak of a column, not its sum: in a column
    with positive peak [M] the weights add up to [sum_p masked[p,j] / M],
    which is at least 1 when the column has no negative value. *)
Theorem psf_weights_column_sum (psf mask : ndarray2) (j : nat) (M : Q) :
  shape0 mask = shape0 psf -> shape1 mask = shape1 psf ->
  (j < shape1 psf)%nat ->
  is_col_peak (masked psf mask) (shape0 psf) j M -> 0 < M ->
  exists out, Notebook.psf_weightimage psf mask = Ok out /\
    sum_upto (fun p => item out p j) (shape0 psf)
      == sum_upto (fun p => masked psf mask p j) (shape0 psf) / M /\
    ((forall p, (p < shape0 psf)%nat -> 0 <= masked psf mask p j) ->
     1 <= sum_upto (fun p => item out p j) (shape0 psf)).
Proof.
  intros H0 H1 Hj HM Mpos.
  assert (Hm : (0 < shape0 psf)%nat).
  { destruct HM as [_ [p [Hp _]]]. lia. }
  destruct (psf_weightimage_items psf mask H0 H1 Hm) as [out [peak [E [_ [_ [Pk It]]]]]].
  exists out. split; [exact E|].
  assert (EM : peak j == M) by (eapply is_col_peak_unique; [now apply Pk | exact HM]).
  assert (NZ : ~ peak j == 0) by lra.
  assert (Sum : sum_upto (fun p => item out p j) (shape0 psf)
                == sum_upto (fun p => masked psf mask p j) (shape0 psf) / M).
  { rewrite (sum_upto_ext _ (fun p => masked psf mask p j / M)).
    - apply sum_upto_div.
    - intros p Hp. rewrite (It p j Hp Hj), (div_guard_other _ _ NZ). now rewrite EM. }
  split; [exact Sum|]. intros Hnn. rewrite Sum.
  destruct HM as [_ [p0 [Hp0 E0]]].
  assert (Hge : M <= sum_upto (fun p => masked psf mask p j) (shape0 psf)).
  { rewrite <- E0.
    apply (sum_upto_ge_term (fun p => masked psf mask p j)); assumption. }
  rewrite <- (div_self M) by lra. apply div_le_pos; assumption.
Qed.

Lemma psf_weights_column_sum_witness :
  let psf := array [[1; 2]; [3; 4]] in
  let mask := array [[1; 1]; [1; 1]] in
  shape0 mask = shape0 psf /\ shape1 mask = shape1 psf /\
  (0 < shape1 psf)%nat /\
  is_col_peak (masked psf mask) (shape0 psf) 0 3 /\ 0 < 3 /\
  exists out, Notebook.psf_weightimage psf mask = Ok out /\
    sum_upto (fun p => item out p 0%nat) (shape0 psf)
      == sum_upto (fun p => masked psf mask p 0) (shape0 psf) / 3 /\
    ((forall p, (p < shape0 psf)%nat -> 0 <= masked psf mask p 0) ->
     1 <= sum_upto (fun p => item out p 0%nat) (shape0 psf)).
Proof.
  intros psf mask.
  assert (Hj : (0 < shape1 psf)%nat) by (simpl; lia).
  assert (HM : is_col_peak (masked psf mask) (shape0 psf) 0 3).
  { split.
    - intros [|[|p]] Hp; simpl in Hp; try lia; vm_compute; discriminate.
    - exists 1%nat. split; [simpl; lia | reflexivity]. }
  assert (Hpos : 0 < 3) by reflexivity.
  split; [reflexivity|]. split; [reflexivity|]. split; [exact Hj|].
  split; [exact HM|]. split; [exact Hpos|].
  exact (psf_weights_column_sum psf mask 0 3 eq_refl eq_refl Hj HM Hpos).
Defined.

(** X5.  The normalisation cell returns exactly when the shapes of the two
    images broadcast to a shape with at least one row; otherwise it raises
    [ValueError].  Whatever the images, it raises no division error. *)
Theorem psf_weightimage_returns (psf mask : ndarray2) :
  match Notebook.psf_weightimage psf mask with
  | Ok out =>
      bdim (shape0 psf) (shape0 mask) = Some (shape0 out) /\
      bdim (shape1 psf) (shape1 mask) = Some (shape1 out) /\
      (0 < shape0 out)%nat
  | Raise e =>
      e = ValueError /\
      (bdim (shape0 psf) (shape0 mask) = None \/
       bdim (shape1 psf) (shape1 mask) = None \/
       bdim (shape0 psf) (shape0 mask) = Some 0%nat)
  end.
Proof.
  unfold Notebook.psf_weightimage, multiply, binop.
  destruct (bdim (shape0 psf) (shape0 mask)) as [m|] eqn:Bm;
    [|simpl; split; [reflexivity | now left]].
  destruct (bdim (shape1 psf) (shape1 mask)) as [n|] eqn:Bn;
    [|simpl; split; [reflexivity | right; now left]].
  simpl bind.
  set (c := {| shape0 := m; shape1 := n; item := _ |}).
  destruct (Nat.eq_dec m 0) as [-> | Hnz].
  - rewrite (normalize_columns_empty c eq_refl). split; [reflexivity|]. right. now right.
  - destruct (normalize_columns_items c) as [out [E [S0 [S1 _]]]]; [simpl; lia|].
    rewrite E. simpl in S0, S1. rewrite S0, S1. repeat split. lia.
Qed.

(** X6.  Within every column the weights stay proportional to the masked
    values: [out[p,j] * masked[q,j] = out[q,j] * masked[p,j]]. *)
Theorem psf_weights_proportional (psf mask : ndarray2) :
  shape0 mask = shape0 psf -> shape1 mask = shape1 psf ->
  match Notebook.psf_weightimage psf mask with
  | Ok out =>
      (0 < shape0 psf)%nat /\
      forall p q j, (p < shape0 psf)%nat -> (q < shape0 psf)%nat -> (j < shape1 psf)%nat ->
        item out p j * masked psf mask q j == item out q j * masked psf mask p j
  | Raise e => shape0 psf = 0%nat /\ e = ValueError
  end.
Proof.
  intros H0 H1. destruct (Nat.eq_dec (shape0 psf) 0) as [Hz | Hnz].
  - rewrite (psf_weightimage_empty psf mask H0 H1 Hz). now split.
  - destruct (psf_weightimage_items psf mask H0 H1) as [out [peak [E [_ [_ [_ It]]]]]];
      [lia|].
    rewrite E. split; [lia|]. intros p q j Hp Hq Hj.
    rewrite (It p j Hp Hj), (It q j Hq Hj). unfold Qdiv. ring.
Qed.

Lemma psf_weights_proportional_witness :
  let psf := array [[1; 2]; [3; 4]] in
  let mask := array [[1; 0]; [1; 1]] in
  shape0 mask = shape0 psf /\ shape1 mask = shape1 psf /\
  match Notebook.psf_weightimage psf mask with
  | Ok out =>
      (0 < shape0 psf)%nat /\
      forall p q j, (p < shape0 psf)%nat -> (q < shape0 psf)%nat -> (j < shape1 psf)%nat ->
        item out p j * masked psf mask q j == item out q j * masked psf mask p j
  | Raise e => shape0 psf = 0%nat /\ e = ValueError
  end.
Proof.
  intros psf mask. split; [reflexivity|]. split; [reflexivity|].
  apply (psf_weights_proportional psf mask); reflexivity.
Defined.

(** X7.  The PSF-weighted extraction is linear in the image: on an image
    that is, pixel by pixel, [x * a + y * b], the extracted spectrum is
    [x] times that of [a] plus [y] times that of [b]. *)
Theorem ext1d_psfweight_linear (a b c w : ndarray2) (x y pixelarea : Q) :
  shape0 b = shape0 a -> shape1 b = shape1 a ->
  shape0 c = shape0 a -> shape1 c = shape1 a ->
  shape0 w = shape0 a -> shape1 w = shape1 a ->
  (forall p j, (p < shape0 a)%nat -> (j < shape1 a)%nat ->
     item c p j == x * item a p j + y * item b p j) ->
  exists ea eb ec,
    Notebook.ext1d_psfweight a w pixelarea = Ok ea /\
    Notebook.ext1d_psfweight b w pixelarea = Ok eb /\
    Notebook.ext1d_psfweight c w pixelarea = Ok ec /\
    forall j, (j < shape1 a)%nat ->
      item1 ec j == x * item1 ea j + y * item1 eb j.
Proof.
  intros B0 B1 C0 C1 W0 W1 Hc.
  destruct (ext1d_psfweight_items a w pixelarea W0 W1) as [ea [Ea [_ Ia]]].
  destruct (ext1d_psfweight_items b w pixelarea) as [eb [Eb [_ Ib]]];
    [congruence | congruence |].
  destruct (ext1d_psfweight_items c w pixelarea) as [ec [Ec [_ Ic]]];
    [congruence | congruence |].
  exists ea, eb, ec. split; [exact Ea|]. split; [exact Eb|]. split; [exact Ec|].
  intros j Hj. rewrite (Ia j Hj), (Ib j), (Ic j) by congruence.
  rewrite B0, C0.
  rewrite (sum_upto_ext (fun p => item c p j * item w p j)
             (fun p => (x * item a p j + y * item b p j) * item w p j)).
  - rewrite sum_upto_linear. ring.
  - intros p Hp. now rewrite (Hc p j Hp Hj).
Qed.

Lemma ext1d_psfweight_linear_witness :
  let a := array [[1; 2]; [3; 4]] in
  let b := array [[1; 1]; [0; 2]] in
  let c := array [[5; 7]; [6; 14]] in
  let w := array [[1; 1 # 2]; [1 # 2; 1]] in
  shape0 b = shape0 a /\ shape1 b = shape1 a /\
  shape0 c = shape0 a /\ shape1 c = shape1 a /\
  shape0 w = shape0 a /\ shape1 w = shape1 a /\
  (forall p j, (p < shape0 a)%nat -> (j < shape1 a)%nat ->
     item c p j == 2 * item a p j + 3 * item b p j) /\
  exists ea eb ec,
    Notebook.ext1d_psfweight a w (1 # 4) = Ok ea /\
    Notebook.ext1d_psfweight b w (1 # 4) = Ok eb /\
    Notebook.ext1d_psfweight c w (1 # 4) = Ok ec /\
    forall j, (j < shape1 a)%nat ->
      item1 ec j == 2 * item1 ea j + 3 * item1 eb j.
Proof.
  intros a b c w.
  assert (Hc : forall p j, (p < shape0 a)%nat -> (j < shape1 a)%nat ->
            item c p j == 2 * item a p j + 3 * item b p j).
  { intros [|[|p]] [|[|j]] Hp Hj; simpl in Hp, Hj; try lia; reflexivity. }
  repeat (split; [reflexivity|]). split; [exact Hc|].
  exact (ext1d_psfweight_linear a b c w 2 3 (1 # 4)
           eq_refl eq_refl eq_refl eq_refl eq_refl eq_refl Hc).
Defined.

(** X8.  The two PSF cells together: with no negative pixel in the raw PSF
    image, the mask and the image, and a pixel area that is not negative,
    the PSF-weighted spectrum is not negative and at most the plain column
    sum of the image times [1e6 * pixelarea]. *)
Theorem psf_weighted_flux_bounds (psf mask image : ndarray2) (pixelarea : Q) :
  shape0 mask = shape0 psf -> shape1 mask = shape1 psf ->
  shape0 image = shape0 psf -> shape1 image = shape1 psf ->
  (0 < shape0 psf)%nat -> 0 <= pixelarea ->
  (forall p j, (p < shape0 psf)%nat -> (j < shape1 psf)%nat ->
     0 <= item psf p j /\ 0 <= item mask p j /\ 0 <= item image p j) ->
  exists weights ext1d,
    Notebook.psf_weightimage psf mask = Ok weights /\
    Notebook.ext1d_psfweight image weights pixelarea = Ok ext1d /\
    forall j, (j < shape1 psf)%nat ->
      0 <= item1 ext1d j <=
      sum_upto (fun p => item image p j) (shape0 psf) * (1000000 * pixelarea).
Proof.
  intros H0 H1 I0 I1 Hm Hpa Hnn.
  destruct (psf_weightimage_range psf mask H0 H1 Hm) as [w [Ew [S0 [S1 R]]]].
  { intros p j Hp Hj. destruct (Hnn p j Hp Hj) as [? [? _]]. now split. }
  destruct (ext1d_psfweight_items image w pixelarea) as [e [Ee [_ Ie]]];
    [congruence | congruence |].
  exists w, e. split; [exact Ew|]. split; [exact Ee|].
  intros j Hj. rewrite (Ie j) by congruence. rewrite I0.
  assert (Hf : 0 <= 1000000 * pixelarea) by lra.
  assert (Lo : 0 <= sum_upto (fun p => item image p j * item w p j) (shape0 psf)).
  { apply sum_upto_nonneg. intros p Hp.
    destruct (Hnn p j Hp Hj) as [_ [_ Hi]]. destruct (R p j Hp Hj) as [Hw _].
    now apply Qmult_le_0_compat. }
  assert (Hi : sum_upto (fun p => item image p j * item w p j) (shape0 psf)
               <= sum_upto (fun p => item image p j) (shape0 psf)).
  { apply sum_upto_le. intros p Hp.
    destruct (Hnn p j Hp Hj) as [_ [_ Hi]]. destruct (R p j Hp Hj) as [_ Hw].
    rewrite <- (Qmult_1_r (item image p j)) at 2.
    rewrite !(Qmult_comm (item image p j)).
    apply Qmult_le_compat_r; assumption. }
  split.
  - now apply Qmult_le_0_compat.
  - apply Qmult_le_compat_r; assumption.
Qed.

Lemma psf_weighted_flux_bounds_witness :
  let psf := array [[1; 2]; [3; 0]] in
  let mask := array [[1; 0]; [1 # 2; 1]] in
  let image := array [[10; 20]; [30; 40]] in
  shape0 mask = shape0 psf /\ shape1 mask = shape1 psf /\
  shape0 image = shape0 psf /\ shape1 image = shape1 psf /\
  (0 < shape0 psf)%nat /\ 0 <= 1 # 4 /\
  (forall p j, (p < shape0 psf)%nat -> (j < shape1 psf)%nat ->
     0 <= item psf p j /\ 0 <= item mask p j /\ 0 <= item image p j) /\
  exists weights ext1d,
    Notebook.psf_weightimage psf mask = Ok weights /\
    Notebook.ext1d_psfweight image weights (1 # 4) = Ok ext1d /\
    forall j, (j < shape1 psf)%nat ->
      0 <= item1 ext1d j <=
      sum_upto (fun p => item image p j) (shape0 psf) * (1000000 * (1 # 4)).
Proof.
  intros psf mask image.
  assert (Hm : (0 < shape0 psf)%nat) by (simpl; lia).
  assert (Hpa : 0 <= 1 # 4) by (vm_compute; discriminate).
  assert (Hnn : forall p j, (p < shape0 psf)%nat -> (j < shape1 psf)%nat ->
            0 <= item psf p j /\ 0 <= item mask p j /\ 0 <= item image p j).
  { intros [|[|p]] [|[|j]] Hp Hj; simpl in Hp, Hj; try lia;
      repeat split; vm_compute; discriminate. }
  repeat (split; [reflexivity|]). split; [exact Hm|]. split; [exact Hpa|].
  split; [exact Hnn|].
  exact (psf_weighted_flux_bounds psf mask image (1 # 4)
           eq_refl eq_refl eq_refl eq_refl Hm Hpa Hnn).
Defined.

Lemma selected_In (m : boolarray) (j : nat) :
  In j (selected m) <-> (j < blen m)%nat /\ bitem m j = true.
Proof.
  unfold selected. rewrite filter_In, in_seq. split; intros [H1 H2]; (split; [lia | exact H2]).
Qed.

Lemma filter_seq_increasing (f : nat -> bool) (n a k1 k2 : nat) :
  (k1 < k2 < length (filter f (seq a n)))%nat ->
  (nth k1 (filter f (seq a n)) 0 < nth k2 (filter f (seq a n)) 0)%nat.
Proof.
  revert a k1 k2. induction n as [|n IH]; intros a k1 k2 H; simpl in *; [lia|].
  destruct (f a) eqn:Fa; [|now apply IH].
  simpl in H. destruct k2 as [|k2]; [lia|]. simpl.
  destruct k1 as [|k1].
  - assert (Hin : In (nth k2 (filter f (seq (S a) n)) 0%nat) (filter f (seq (S a) n)))
      by (apply nth_In; lia).
    apply filter_In in Hin. destruct Hin as [Hin _]. apply in_seq in Hin. lia.
  - apply IH. lia.
Qed.

Lemma gpts_true (v : ndarray1) (j : nat) :
  bitem (Notebook.gpts v) j = true <-> 0 < item1 v j.
Proof.
  unfold Notebook.gpts, greater. simpl. rewrite negb_true_iff.
  split; intros H.
  - apply Qnot_le_lt. intros C. apply Qle_bool_iff in C. congruence.
  - apply not_true_iff_false. intros C. apply Qle_bool_iff in C. lra.
Qed.

Lemma getitem_mask_items (v : ndarray1) (m : boolarray) :
  blen m = len v ->
  exists r, getitem_mask v m = Item r /\ len r = length (selected m) /\
    forall k, (k < length (selected m))%nat ->
      item1 r k = item1 v (nth k (selected m) 0%nat).
Proof.
  intros H. unfold getitem_mask. rewrite H, Nat.eqb_refl.
  eexists. split; [reflexivity|]. simpl. split; [apply length_map|].
  intros k Hk.
  rewrite (nth_indep _ 0 (item1 v 0%nat)) by (rewrite length_map; exact Hk).
  apply map_nth.
Qed.

Lemma getitem_mask_error (v : ndarray1) (m : boolarray) :
  blen m <> len v -> getitem_mask v m = IndexError.
Proof.
  intros H. unfold getitem_mask. apply Nat.eqb_neq in H. now rewrite H.
Qed.

(** X9.  A plotted spectrum keeps its wavelengths and fluxes aligned: the
    selection [(waves[gpts], ext1d[gpts])] with [gpts = ref > 0.] is defined
    exactly when both arrays are as long as [ref]; it keeps, in increasing
    order of the column, exactly the columns where [ref] is positive, and
    its k-th wavelength and k-th flux come from the same column. *)
Theorem plotted_points_aligned (waves ext1d ref : ndarray1) :
  match Notebook.plotted_points waves ext1d (Notebook.gpts ref) with
  | Item (w, f) =>
      len waves = len ref /\ len ext1d = len ref /\
      exists idx : list nat,
        len w = length idx /\ len f = length idx /\
        (forall j, In j idx <-> (j < len ref)%nat /\ 0 < item1 ref j) /\
        (forall k1 k2, (k1 < k2 < length idx)%nat ->
           (nth k1 idx 0 < nth k2 idx 0)%nat) /\
        (forall k, (k < length idx)%nat ->
           item1 w k = item1 waves (nth k idx 0%nat) /\
           item1 f k = item1 ext1d (nth k idx 0%nat))
  | IndexError => len waves <> len ref \/ len ext1d <> len ref
  end.
Proof.
  unfold Notebook.plotted_points.
  destruct (Nat.eq_dec (len waves) (len ref)) as [Hw | Hw].
  - destruct (getitem_mask_items waves (Notebook.gpts ref)) as [w [Ew [Lw Iw]]];
      [simpl; congruence|].
    rewrite Ew.
    destruct (Nat.eq_dec (len ext1d) (len ref)) as [Hf | Hf].
    + destruct (getitem_mask_items ext1d (Notebook.gpts ref)) as [f [Ef [Lf If]]];
        [simpl; congruence|].
      rewrite Ef. split; [exact Hw|]. split; [exact Hf|].
      exists (selected (Notebook.gpts ref)).
      split; [exact Lw|]. split; [exact Lf|]. split; [|split].
      * intros j. rewrite selected_In, gpts_true. reflexivity.
      * intros k1 k2 H. now apply filter_seq_increasing.
      * intros k Hk. split; [now apply Iw | now apply If].
    + rewrite getitem_mask_error by (simpl; congruence). now right.
  - rewrite getitem_mask_error by (simpl; congruence). now left.
Qed.

Example plotted_points_run :
  match Notebook.plotted_points (array1 [5; 6; 7; 8]) (array1 [1; -2; 0; 3])
          (Notebook.gpts (array1 [1; -2; 0; 3])) with
  | Item (w, f) => (tolist1 w, tolist1 f)
  | IndexError => ([], [])
  end = ([5; 8], [1; 3]).
Proof. vm_compute. reflexivity. Qed.

(** X10.  The two PSF cells and the plot together: a column that the mask
    zeroes entirely has PSF-weighted flux exactly 0, so [gpts] is false
    there and the plot leaves the column out. *)
Theorem masked_out_column_not_plotted (psf mask image : ndarray2) (pixelarea : Q)
    (j : nat) :
  shape0 mask = shape0 psf -> shape1 mask = shape1 psf ->
  shape0 image = shape0 psf -> shape1 image = shape1 psf ->
  (0 < shape0 psf)%nat -> (j < shape1 psf)%nat ->
  (forall p, (p < shape0 psf)%nat -> item mask p j == 0) ->
  exists weights ext1d,
    Notebook.psf_weightimage psf mask = Ok weights /\
    Notebook.ext1d_psfweight image weights pixelarea = Ok ext1d /\
    item1 ext1d j == 0 /\
    bitem (Notebook.gpts ext1d) j = false /\
    ~ In j (selected (Notebook.gpts ext1d)).
Proof.
  intros H0 H1 I0 I1 Hm Hj Hz.
  destruct (psf_weightimage_items psf mask H0 H1 Hm) as [w [peak [Ew [S0 [S1 [_ It]]]]]].
  destruct (ext1d_psfweight_items image w pixelarea) as [e [Ee [_ Ie]]];
    [congruence | congruence |].
  exists w, e. split; [exact Ew|]. split; [exact Ee|].
  assert (Z : item1 e j == 0).
  { rewrite (Ie j) by congruence. rewrite I0.
    rewrite (sum_upto_zero (fun p => item image p j * item w p j)); [ring|].
    intros p Hp. rewrite (It p j Hp Hj). unfold masked, Qdiv.
    rewrite (Hz p Hp). ring. }
  assert (B : bitem (Notebook.gpts e) j = false).
  { apply not_true_iff_false. rewrite gpts_true. lra. }
  split; [exact Z|]. split; [exact B|].
  intros Hin. apply selected_In in Hin. destruct Hin as [_ Hin]. congruence.
Qed.

Lemma masked_out_column_not_plotted_witness :
  let psf := array [[1; 2]; [3; 4]] in
  let mask := array [[1; 0]; [1; 0]] in
  let image := array [[10; 20]; [30; 40]] in
  shape0 mask = shape0 psf /\ shape1 mask = shape1 psf /\
  shape0 image = shape0 psf /\ shape1 image = shape1 psf /\
  (0 < shape0 psf)%nat /\ (1 < shape1 psf)%nat /\
  (forall p, (p < shape0 psf)%nat -> item mask p 1 == 0) /\
  exists weights ext1d,
    Notebook.psf_weightimage psf mask = Ok weights /\
    Notebook.ext1d_psfweight image weights (1 # 4) = Ok ext1d /\
    item1 ext1d 1 == 0 /\
    bitem (Notebook.gpts ext1d) 1 = false /\
    ~ In 1%nat (selected (Notebook.gpts ext1d)).
Proof.
  intros psf mask image.
  assert (Hm : (0 < shape0 psf)%nat) by (simpl; lia).
  assert (Hj : (1 < shape1 psf)%nat) by (simpl; lia).
  assert (Hz : forall p, (p < shape0 psf)%nat -> item mask p 1 == 0).
  { intros [|[|p]] Hp; simpl in Hp; try lia; reflexivity. }
  repeat (split; [reflexivity|]). split; [exact Hm|]. split; [exact Hj|].
  split; [exact Hz|].
  exact (masked_out_column_not_plotted psf mask image (1 # 4) 1
           eq_refl eq_refl eq_refl eq_refl Hm Hj Hz).
Defined.

(** The extraction cell returns exactly when the shapes of the image and of
    the weights broadcast, raising [ValueError] otherwise; unlike the
    normalisation it accepts images without rows, and its spectrum is then
    0 in every column. *)
Lemma ext1d_psfweight_returns (image weights : ndarray2) (pixelarea : Q) :
  match Notebook.ext1d_psfweight image weights pixelarea with
  | Ok ext1d =>
      exists m,
        bdim (shape0 image) (shape0 weights) = Some m /\
        bdim (shape1 image) (shape1 weights) = Some (len ext1d) /\
        (m = 0%nat -> forall j, item1 ext1d j == 0)
  | Raise e =>
      e = ValueError /\
      (bdim (shape0 image) (shape0 weights) = None \/
       bdim (shape1 image) (shape1 weights) = None)
  end.
Proof.
  unfold Notebook.ext1d_psfweight, Notebook.weighted_sum, multiply, binop.
  destruct (bdim (shape0 image) (shape0 weights)) as [m|] eqn:Bm;
    [|simpl; split; [reflexivity | now left]].
  destruct (bdim (shape1 image) (shape1 weights)) as [n|] eqn:Bn;
    [|simpl; split; [reflexivity | now right]].
  simpl. exists m. split; [reflexivity|]. split; [reflexivity|].
  intros -> j. simpl. ring.
Qed.

Example ext1d_psfweight_run_no_rows :
  match Notebook.ext1d_psfweight (full 0 3 1) (full 0 3 1) (1 # 4) with
  | Ok v => tolist1 v
  | Raise _ => [1]
  end = [0; 0; 0]
  /\ Notebook.psf_weightimage (full 0 3 1) (full 0 3 1) = Raise ValueError.
Proof. split; reflexivity. Qed.

(** X12.  A cross-dispersion cut of the transposed image is a row of the
    data as stored: [np.transpose(data)[:, k]] is defined exactly for
    [-rows <= k < rows], is then row [k mod rows] of [data], and is as long
    as the abscissas [np.arange(shape[0])] it is plotted against. *)
Theorem cross_dispersion_cut_is_row (s2d_data : ndarray2) (k : Z) :
  let rows := Z.of_nat (shape0 s2d_data) in
  match Notebook.cross_dispersion_cut (Notebook.data_lrs_reg s2d_data) k with
  | Item (y, cut) =>
      (- rows <= k < rows)%Z /\
      len y = len cut /\ len cut = shape1 s2d_data /\
      forall i, item1 y i = inject_Z (Z.of_nat i) /\
                item1 cut i = item s2d_data (Z.to_nat (k mod rows)) i
  | IndexError => (k < - rows \/ rows <= k)%Z
  end.
Proof.
  intros rows. unfold Notebook.cross_dispersion_cut, Notebook.data_lrs_reg, getcol.
  simpl shape1. simpl shape0. fold rows.
  destruct ((0 <=? k)%Z && (k <? rows)%Z) eqn:B1.
  - apply andb_true_iff in B1. destruct B1 as [L U].
    apply Z.leb_le in L. apply Z.ltb_lt in U.
    split; [lia|]. simpl. repeat split.
    now rewrite Z.mod_small by lia.
  - destruct ((- rows <=? k)%Z && (k <? 0)%Z) eqn:B2.
    + apply andb_true_iff in B2. destruct B2 as [L U].
      apply Z.leb_le in L. apply Z.ltb_lt in U.
      split; [lia|]. simpl. repeat split.
      replace (k mod rows)%Z with (rows + k)%Z; [reflexivity|].
      apply Z.mod_unique with (q := (-1)%Z); lia.
    + apply andb_false_iff in B1. apply andb_false_iff in B2.
      rewrite !Z.leb_gt, !Z.ltb_ge in *. lia.
Qed.

Example cross_dispersion_cut_run :
  match Notebook.cross_dispersion_cut
          (Notebook.data_lrs_reg (array [[1; 2; 3]; [4; 5; 6]])) 1 with
  | Item (y, cut) => (tolist1 y, tolist1 cut)
  | IndexError => ([], [])
  end = ([0; 1; 2], [4; 5; 6])
  /\ Notebook.cross_dispersion_cut
       (Notebook.data_lrs_reg (array [[1; 2; 3]; [4; 5; 6]])) 300 = IndexError.
Proof. split; vm_compute; reflexivity. Qed.
